(** * PyKids Robots: the game server (robots/server.py)

    A shallow embedding of the server's phase machine, player registry and
    world engine, and the properties of them that the specification states.

    Python dictionaries are finite maps ([gmap]); integers are [Z]; a string
    is the [string] of its UTF-8 encoding; what [time.time()] returns is a
    binary64 float ([PrimFloat]).  The attributes
    of the [Server] object are a record that every method takes and returns;
    the clock, the random generator and the socket are an environment threaded
    through a small state-and-exception monad. *)

From Stdlib Require Import ZArith Ascii PrimFloat FloatOps SpecFloat.
From stdpp Require Import base option list strings gmap fin_maps pretty.

Local Open Scope Z_scope.

(** ** Exceptions and the monad *)

Inductive exn :=
| AttributeError (attr : string)
| KeyError (key : string)
| ValueError
| IndexError.

Inductive result (A : Type) :=
| Ok (a : A)
| Raise (e : exn).
Arguments Ok {A} a.
Arguments Raise {A} e.

Module Point.
Record t := make { x : Z; y : Z }.
End Point.

(** A robot is the dictionary [generate_world] builds: the keys are fixed. *)
Record Robot := {
  move_from : Point.t;
  move_to : Point.t;
  damage : Z;
  target : option string;
  hp : Z;
}.

Record World := {
  arena : Z * Z;
  robots : gmap string Robot;
  wrecks : gmap string Robot;
}.

(** A record of the roster: the dictionary [{'nick': .., 'will': ..}]. *)
Record PlayerRecord := {
  nick : string;
  will : string;
}.

(** The order an action carries.  [_on_action] stores the target only; the
    engine also reads an optional ['move_to']. *)
Record Action := {
  act_target : option string;
  act_move_to : option Point.t;
}.

(** What [_send_to] puts on the socket, serialised when it is sent. *)
Inductive Outgoing :=
| Roster (players : gmap string PlayerRecord)
| Sitrep (world : World) (turn : Z)
| Results (world : World) (turn : Z)
| EndOfGame.

(** The environment of the process: the successive readings of [time.time()],
    the successive draws of the random generator, and the messages sent. *)
Record Env := {
  clock : nat → float;
  reads : nat;
  dice : nat → nat;
  rolls : nat;
  wire : list (string * Outgoing);
}.

Definition M (A : Type) : Type := Env → result (A * Env).

Global Instance M_ret : MRet M := λ A a e, Ok (a, e).

Global Instance M_bind : MBind M := λ A B k m e,
  match m e with
  | Ok (a, e') => k a e'
  | Raise err => Raise err
  end.

Definition raise {A} (err : exn) : M A := λ _, Raise err.

Definition lift {A} (r : result A) : M A :=
  λ e, match r with Ok a => Ok (a, e) | Raise err => Raise err end.

Definition time_time : M float :=
  λ e, Ok (clock e (reads e),
           {| clock := clock e; reads := S (reads e); dice := dice e;
              rolls := rolls e; wire := wire e |}).

(** One draw of the generator, uniform below [n]. *)
Definition randbelow (n : nat) : M nat :=
  λ e, Ok ((dice e (rolls e) mod n)%nat,
           {| clock := clock e; reads := reads e; dice := dice e;
              rolls := S (rolls e); wire := wire e |}).

Definition send_to (recipient : string) (message : Outgoing) : M unit :=
  λ e, Ok (tt,
           {| clock := clock e; reads := reads e; dice := dice e;
              rolls := rolls e; wire := wire e ++ [(recipient, message)] |}).

(** ** Starting positions *)

(** [range(start, stop, step)] for a positive step. *)
Definition py_range (start stop step : Z) : list Z :=
  (λ i : nat, start + step * Z.of_nat i) <$>
    seq 0 (Z.to_nat ((stop - start + step - 1) / step)).

Definition starts : list (Z * Z) :=
  flat_map (λ x, [(x + 25, 25); (x + 25, 875)]) (py_range 50 1550 50) ++
  flat_map (λ y, [(25, y + 25); (1575, y + 25)]) (py_range 50 850 50).

(** ** The random sample

    [random.sample] is the interpreter's library.  It is modelled by its
    contract: [k] items taken from the population one after the other, each
    from the items not taken yet, and [ValueError] when the population is
    smaller than [k]. *)
Fixpoint draw {A} (pool : list A) (k : nat) : M (list A) :=
  match k with
  | O => mret []
  | S k' =>
      j ← randbelow (length pool);
      match pool !! j with
      | Some item => rest ← draw (delete j pool) k'; mret (item :: rest)
      | None => mret []
      end
  end.

Definition random_sample {A} (population : list A) (k : nat) : M (list A) :=
  if decide (length population < k)%nat then raise ValueError
  else draw population k.

(** ** generate_world *)

(** [l.pop()]: the last item and the list without it. *)
Definition list_pop {A} (l : list A) : option (A * list A) :=
  match reverse l with
  | [] => None
  | item :: front => Some (item, reverse front)
  end.

Definition new_robot (x y : Z) : Robot :=
  {| move_from := Point.make x y;
     move_to := Point.make x y;
     damage := 10;
     target := None;
     hp := 100 |}.

(** The loop [for player in players], over the keys in iteration order. *)
Fixpoint deploy (names : list string) (positions : list (Z * Z))
    (acc : gmap string Robot) : result (gmap string Robot) :=
  match names with
  | [] => Ok acc
  | player :: rest =>
      match list_pop positions with
      | None => Raise IndexError
      | Some ((x, y), positions') =>
          deploy rest positions' (<[player := new_robot x y]> acc)
      end
  end.

Definition generate_world (players : gmap string PlayerRecord) : M World :=
  positions ← random_sample starts (size players);
  robots ← lift (deploy (map_to_list players).*1 positions ∅);
  mret {| arena := (1600, 900); robots := robots; wrecks := ∅ |}.

(** ** update_world *)

Global Instance result_ret : MRet result := λ A a, Ok a.

Global Instance result_bind : MBind result := λ A B k r,
  match r with
  | Ok a => k a
  | Raise err => Raise err
  end.

Global Instance result_fmap : FMap result := λ A B f r,
  match r with
  | Ok a => Ok (f a)
  | Raise err => Raise err
  end.

Definition with_hp (h : Z) (r : Robot) : Robot :=
  {| move_from := move_from r; move_to := move_to r; damage := damage r;
     target := target r; hp := h |}.

Definition with_target (t : option string) (r : Robot) : Robot :=
  {| move_from := move_from r; move_to := move_to r; damage := damage r;
     target := t; hp := hp r |}.

Definition with_move_from (p : Point.t) (r : Robot) : Robot :=
  {| move_from := p; move_to := move_to r; damage := damage r;
     target := target r; hp := hp r |}.

Definition with_move_to (p : Point.t) (r : Robot) : Robot :=
  {| move_from := move_from r; move_to := p; damage := damage r;
     target := target r; hp := hp r |}.

(** The body of the first loop, for the robot stored under [name]: the robot
    is an object shared with the dictionary, so each assignment is an update
    of the dictionary's entry.  (The loop only visits keys of [rs].) *)
Definition strike (rs : gmap string Robot) (name : string) : gmap string Robot :=
  match rs !! name with
  | None => rs
  | Some robot =>
      let rs1 := <[name := with_move_from (move_to robot) robot]> rs in
      let rs2 :=
        match target robot with
        | Some victim =>
            match rs1 !! victim with
            | Some v => <[victim := with_hp (hp v - damage robot) v]> rs1
            | None => rs1
            end
        | None => rs1
        end in
      alter (with_target None) name rs2
  end.

Definition damage_phase (rs : gmap string Robot) : gmap string Robot :=
  foldl strike rs (map_to_list rs).*1.

(** The body of the second loop, over the snapshot [list(robots.items())].
    [pop(name)] gives back the robot of the snapshot: its key is in [robots]
    until this very pass takes it out. *)
Definition scrap (st : gmap string Robot * gmap string Robot)
    (item : string * Robot) : gmap string Robot * gmap string Robot :=
  if decide (hp item.2 ≤ 0) then (delete item.1 st.1, <[item.1 := item.2]> st.2)
  else st.

Definition prune (rs wk : gmap string Robot)
    : gmap string Robot * gmap string Robot :=
  foldl scrap (rs, wk) (map_to_list rs).

(** The body of the third loop: [world['robots'][name]] raises [KeyError]
    when [name] has no robot.  An action without ['move_to'] has [None] for
    [act_move_to]. *)
Definition obey (rs : gmap string Robot) (item : string * Action)
    : result (gmap string Robot) :=
  match rs !! item.1 with
  | None => Raise (KeyError item.1)
  | Some robot =>
      Ok (<[item.1 :=
              with_target (act_target item.2)
                (with_move_to (default (move_from robot) (act_move_to item.2))
                   robot)]> rs)
  end.

Fixpoint absorb (items : list (string * Action)) (rs : gmap string Robot)
    : result (gmap string Robot) :=
  match items with
  | [] => Ok rs
  | item :: rest => rs' ← obey rs item; absorb rest rs'
  end.

Definition update_world (world : World) (actions : gmap string Action)
    : result World :=
  let struck := damage_phase (robots world) in
  let pruned := prune struck (wrecks world) in
  rs ← absorb (map_to_list actions) pruned.1;
  mret {| arena := arena world; robots := rs; wrecks := pruned.2 |}.

(** ** Messages *)

(** A decoded JSON value, as far as the handlers look into it.  [str()] of a
    float, a list or an object is not computed here: such a value carries the
    text [str()] gives for it.  A [string] holds a Python string in UTF-8: a
    code point is one character below 128, or a leading character followed
    by one to three continuation characters. *)
Inductive pyval :=
| PNone
| PBool (b : bool)
| PInt (n : Z)
| PFloat (f : float) (text : string)
| PStr (s : string)
| PList (text : string)
| PDict (text : string).

Global Instance pyval_inhabited : Inhabited pyval := populate PNone.

Inductive payload :=
| Mapping (fields : gmap string pyval)
| NotMapping.

(** [message.get(key)] *)
Definition msg_get (key : string) (message : gmap string pyval) : pyval :=
  default PNone (message !! key).

(** Formats an integer the way [str()] does. *)
Definition str_int (n : Z) : string :=
  match n with
  | Z0 => "0"
  | Zpos p => pretty (Npos p)
  | Zneg p => "-" +:+ pretty (Npos p)
  end.

Definition py_str (v : pyval) : string :=
  match v with
  | PNone => "None"
  | PBool true => "True"
  | PBool false => "False"
  | PInt n => str_int n
  | PFloat _ text => text
  | PStr s => s
  | PList text => text
  | PDict text => text
  end.

(** The characters [10xxxxxx], which continue a code point. *)
Definition continuation (c : ascii) : bool :=
  match c with
  | Ascii _ _ _ _ _ _ false true => true
  | _ => false
  end.

(** [s[:n]]: the first [n] code points of [s].  A character that begins a
    code point is kept while [n] lasts, and the characters that continue a
    code point go with it. *)
Fixpoint py_prefix (n : nat) (s : string) : string :=
  match s with
  | EmptyString => EmptyString
  | String c rest =>
      if continuation c then String c (py_prefix n rest)
      else
        match n with
        | O => EmptyString
        | S n' => String c (py_prefix n' rest)
        end
  end.

(** [len(s)]: the number of code points of [s]. *)
Fixpoint py_len (s : string) : nat :=
  match s with
  | EmptyString => O
  | String c rest =>
      if continuation c then py_len rest else S (py_len rest)
  end.

(** Does the float hold exactly the integer [n]?  Python compares a float
    with an int by value, without rounding the int. *)
Definition float_eq_int (f : float) (n : Z) : bool :=
  match Prim2SF f with
  | S754_zero _ => n =? 0
  | S754_finite sign m e =>
      let signed (v : Z) := if sign then - v else v in
      if 0 <=? e then signed (Z.pos m * 2 ^ e) =? n
      else (Z.pos m mod 2 ^ (- e) =? 0) && (signed (Z.pos m / 2 ^ (- e)) =? n)
  | _ => false
  end.

(** [v == n] for an integer [n]. *)
Definition py_eq_int (v : pyval) (n : Z) : bool :=
  match v with
  | PInt m => m =? n
  | PBool b => Z.b2z b =? n
  | PFloat f _ => float_eq_int f n
  | _ => false
  end.

(** [v != n] *)
Definition py_ne_int (v : pyval) (n : Z) : bool := negb (py_eq_int v n).

(** ** The server *)

Inductive Phase := registration | game | results.

Global Instance Phase_eq_dec : EqDecision Phase.
Proof. solve_decision. Defined.

(** The attributes of the [Server] object.  [players], [phase] and [since]
    exist from the first [_begin_registration] on; [turn], [actions] and
    [world] only once [_begin_game] has run, and reading one of them before
    that raises [AttributeError]. *)
Record Server := {
  players : gmap string PlayerRecord;
  phase : Phase;
  since : float;
  turn : option Z;
  actions : option (gmap string Action);
  world : option World;
}.

Definition attr {A} (name : string) (field : option A) : result A :=
  match field with
  | Some a => Ok a
  | None => Raise (AttributeError name)
  end.

Definition active_players (s : Server) : gmap string PlayerRecord :=
  filter (λ item, will item.2 = "play") (players s).

(** [record.get(key)] on a record of the roster, whose keys are ['nick'] and
    ['will']. *)
Definition record_get (key : string) (record : PlayerRecord) : option string :=
  if decide (key = "nick") then Some (nick record)
  else if decide (key = "will") then Some (will record)
  else None.

Fixpoint send_each (recipients : list string) (message : Outgoing) : M unit :=
  match recipients with
  | [] => mret tt
  | recipient :: rest =>
      _ ← send_to recipient message; send_each rest message
  end.

Definition send_all (message : Outgoing) (s : Server) : M unit :=
  send_each (map_to_list (players s)).*1 message.

Definition begin_registration (s : Server) : M Server :=
  now ← time_time;
  mret {| players := ∅; phase := registration; since := now;
          turn := turn s; actions := actions s; world := world s |}.

(** The object [__init__] returns has none of the attributes above; the
    three that the record always holds are assigned by
    [_begin_registration] before anything reads them. *)
Definition blank : Server :=
  {| players := ∅; phase := registration; since := 0%float;
     turn := None; actions := None; world := None |}.

Definition begin_results (s : Server) : M Server :=
  now ← time_time;
  let s' := {| players := players s; phase := results; since := now;
               turn := turn s; actions := actions s; world := world s |} in
  w ← lift (attr "world" (world s'));
  t ← lift (attr "turn" (turn s'));
  _ ← send_all (Results w t) s';
  mret s'.

Definition tick_game (s : Server) : M Server :=
  now ← time_time;
  if (now <? since s + 1)%float then mret s
  else
    w ← lift (attr "world" (world s));
    a ← lift (attr "actions" (actions s));
    w' ← lift (update_world w a);
    if decide (size (robots w') ≤ 1)%nat then
      begin_results {| players := players s; phase := phase s;
                       since := since s; turn := turn s;
                       actions := Some ∅; world := Some w' |}
    else
      t ← lift (attr "turn" (turn s));
      now' ← time_time;
      let s' := {| players := players s; phase := phase s; since := now';
                   turn := Some (t + 1); actions := Some ∅;
                   world := Some w' |} in
      _ ← send_all (Sitrep w' (t + 1)) s';
      mret s'.

Definition begin_game (s : Server) : M Server :=
  let s1 := {| players := players s; phase := game; since := 0%float;
               turn := Some 0; actions := Some ∅; world := world s |} in
  w ← generate_world (active_players s1);
  tick_game {| players := players s1; phase := phase s1; since := since s1;
               turn := turn s1; actions := actions s1; world := Some w |}.

Definition tick_registration (s : Server) : M Server :=
  now ← time_time;
  if (since s + 10 <=? now)%float then
    if decide (2 ≤ size (active_players s))%nat then begin_game s
    else mret s
  else mret s.

Definition tick_results (s : Server) : M Server :=
  now ← time_time;
  if (now <? since s + 3)%float then mret s
  else
    _ ← send_all EndOfGame s;
    begin_registration s.

Definition tick (s : Server) : M Server :=
  match phase s with
  | registration => tick_registration s
  | game => tick_game s
  | results => tick_results s
  end.

Definition on_hello (sender : string) (message : gmap string pyval)
    (s : Server) : M Server :=
  let want1 :=
    match msg_get "want" message with
    | PStr w => if decide (w = "play" ∨ w = "spectate") then w else "play"
    | _ => "play"
    end in
  let want2 :=
    if decide (want1 = "play" ∧ phase s ≠ registration) then "spectate"
    else want1 in
  let want3 :=
    if decide (phase s = registration) then
      if decide ((active_players s !! sender) ≫= record_get "want"
                 ≠ Some "play") then
        if decide (length starts ≤ size (active_players s))%nat
        then "spectate" else want2
      else want2
    else want2 in
  let s' := {| players :=
                 <[sender := {| nick := py_prefix 32
                                          (py_str (msg_get "nick" message));
                                will := want3 |}]> (players s);
               phase := phase s; since := since s; turn := turn s;
               actions := actions s; world := world s |} in
  _ ← send_all (Roster (players s')) s';
  mret s'.

Definition on_action (sender : string) (message : gmap string pyval)
    (s : Server) : result Server :=
  w ← attr "world" (world s);
  if decide (robots w !! sender = None) then mret s
  else
    t ← attr "turn" (turn s);
    if py_ne_int (msg_get "turn" message) t then mret s
    else
      let target :=
        match msg_get "target" message with
        | PStr name =>
            if decide (name ≠ sender) then
              if decide (is_Some (robots w !! name)) then Some name else None
            else None
        | _ => None
        end in
      a ← attr "actions" (actions s);
      mret {| players := players s; phase := phase s; since := since s;
              turn := turn s;
              actions := Some (<[sender := {| act_target := target;
                                              act_move_to := None |}]> a);
              world := world s |}.

(** What [run] does with a message it has received: it drops one that is no
    dictionary, has no string under ['type'] or names no handler, and calls
    [_on_hello] or [_on_action] otherwise. *)
Definition dispatch (sender : string) (message : payload) (s : Server)
    : M Server :=
  match message with
  | NotMapping => mret s
  | Mapping fields =>
      match fields !! "type" with
      | Some (PStr kind) =>
          if decide (kind = "hello") then on_hello sender fields s
          else if decide (kind = "action") then
            lift (on_action sender fields s)
          else mret s
      | _ => mret s
      end
  end.

(** The body of the loop of [run].  [incoming] is what [_receive] returns:
    [None] when the wait timed out or the message could not be decoded. *)
Definition iteration (incoming : option (string * payload)) (s : Server)
    : M Server :=
  s1 ← tick s;
  match incoming with
  | None => mret s1
  | Some (sender, message) => dispatch sender message s1
  end.

(** The states the server goes through: [run] enters the registration, then
    repeats the body of its loop, whatever the clock, the generator and the
    peers do. *)
Inductive reachable : Server → Prop :=
| reach_start e s e' :
    begin_registration blank e = Ok (s, e') → reachable s
| reach_step s incoming e s' e' :
    reachable s → iteration incoming s e = Ok (s', e') → reachable s'.

(** Several bodies of the loop in a row, one per incoming event. *)
Fixpoint session (inputs : list (option (string * payload))) (s : Server)
    : M Server :=
  match inputs with
  | [] => mret s
  | incoming :: rest => s' ← iteration incoming s; session rest s'
  end.

(** ** Notions the statements use *)

(** The value a computation returns, without the environment. *)
Definition outcome {A} (r : result (A * Env)) : result A :=
  match r with
  | Ok (a, _) => Ok a
  | Raise err => Raise err
  end.

(** The environment after the messages of [batch] have been sent. *)
Definition sent (e : Env) (batch : list (string * Outgoing)) : Env :=
  {| clock := clock e; reads := reads e; dice := dice e; rolls := rolls e;
     wire := wire e ++ batch |}.

(** The [string] that holds the Python string of the code points [cps]:
    their UTF-8 encoding, the one [sender.decode('utf8')] and
    [message.decode('utf8')] read.  A lone surrogate, which an escape of a
    JSON string can bring in, is encoded by the same rule. *)
Definition utf8_char (cp : N) : string :=
  let byte (n : N) := ascii_of_N n in
  if (cp <? 128)%N then String (byte cp) ""
  else if (cp <? 2048)%N then
    String (byte (192 + cp / 64)%N) (String (byte (128 + cp mod 64)%N) "")
  else if (cp <? 65536)%N then
    String (byte (224 + cp / 4096)%N)
      (String (byte (128 + (cp / 64) mod 64)%N)
         (String (byte (128 + cp mod 64)%N) ""))
  else
    String (byte (240 + (cp / 262144) mod 8)%N)
      (String (byte (128 + (cp / 4096) mod 64)%N)
         (String (byte (128 + (cp / 64) mod 64)%N)
            (String (byte (128 + cp mod 64)%N) ""))).

Fixpoint utf8 (cps : list N) : string :=
  match cps with
  | [] => ""
  | cp :: rest => utf8_char cp +:+ utf8 rest
  end.

(** The damage the robot stored under [attacker] aims at [victim]. *)
Definition blow (rs : gmap string Robot) (victim attacker : string) : Z :=
  match rs !! attacker with
  | Some r => if decide (target r = Some victim) then damage r else 0
  | None => 0
  end.

(** The damage the robots named in [attackers] aim at [victim]. *)
Definition hits (rs : gmap string Robot) (attackers : list string)
    (victim : string) : Z :=
  foldr Z.add 0 (blow rs victim <$> attackers).

(** The damage aimed at [victim] by all the robots of [rs]. *)
Definition incoming (rs : gmap string Robot) (victim : string) : Z :=
  hits rs (map_to_list rs).*1 victim.

(** A robot after the first loop, from the robots [rs] of the start of the
    turn. *)
Definition settled (rs : gmap string Robot) (name : string) (r : Robot)
    : Robot :=
  {| move_from := move_to r; move_to := move_to r; damage := damage r;
     target := None; hp := hp r - incoming rs name |}.

(** The robots in the middle of the first loop, when it has gone through the
    robots named in [seen]. *)
Definition midway (rs : gmap string Robot) (seen : list string)
    : gmap string Robot :=
  map_imap (λ name r,
    Some (if decide (name ∈ seen)
          then {| move_from := move_to r; move_to := move_to r;
                  damage := damage r; target := None;
                  hp := hp r - hits rs seen name |}
          else with_hp (hp r - hits rs seen name) r)) rs.

(** Several turns of the engine in a row, one per dictionary of pending
    actions. *)
Fixpoint turns (orders : list (gmap string Action)) (w : World)
    : result World :=
  match orders with
  | [] => Ok w
  | pending :: rest => w' ← update_world w pending; turns rest w'
  end.

(** No robot aims at itself. *)
Definition no_self_target (rs : gmap string Robot) : Prop :=
  ∀ n r, rs !! n = Some r → target r ≠ Some n.

(** No pending order names its own sender. *)
Definition no_self_order (pending : gmap string Action) : Prop :=
  ∀ n a, pending !! n = Some a → act_target a ≠ Some n.

(** What holds of the server in every state it reaches. *)
Definition sound (s : Server) : Prop :=
  (size (active_players s) ≤ length starts)%nat ∧
  (∀ w, world s = Some w →
     no_self_target (robots w) ∧ dom (robots w) ## dom (wrecks w)) ∧
  (∀ pending, actions s = Some pending → no_self_order pending).

(** Targets and pending orders are apart from their owners. *)
Definition targets_apart (s : Server) : Prop :=
  (∀ w, world s = Some w → no_self_target (robots w)) ∧
  (∀ pending, actions s = Some pending → no_self_order pending).

(** ** Sample data *)

(** A clock that stands still at [t] and a generator that always draws 0. *)
Definition still (t : float) : Env :=
  {| clock := λ _, t; reads := 0; dice := λ _, 0%nat; rolls := 0; wire := [] |}.

(** Two robots, the second about to destroy the first. *)
Definition duel : World :=
  {| arena := (1600, 900);
     robots :=
       {[ "a" := {| move_from := Point.make 75 875;
                    move_to := Point.make 75 875;
                    damage := 10; target := None; hp := 10 |};
          "b" := {| move_from := Point.make 75 25;
                    move_to := Point.make 75 25;
                    damage := 10; target := Some "a"; hp := 100 |} ]};
     wrecks := ∅ |}.

Definition two_players : gmap string PlayerRecord :=
  {[ "a" := {| nick := "A"; will := "play" |};
     "b" := {| nick := "B"; will := "play" |} ]}.

(** The eleventh turn of a game over [duel], with an order of "a" pending. *)
Definition doomed : Server :=
  {| players := two_players;
     phase := game; since := 1500%float; turn := Some 11;
     actions := Some {[ "a" := {| act_target := Some "b";
                                  act_move_to := None |} ]};
     world := Some duel |}.

(** The messages of the peers. *)
Definition hello_fields (want nickname : string) : gmap string pyval :=
  {[ "type" := PStr "hello"; "want" := PStr want; "nick" := PStr nickname ]}.

Definition hello (want nickname : string) : payload :=
  Mapping (hello_fields want nickname).

Definition order (t : Z) (victim : string) : payload :=
  Mapping {[ "type" := PStr "action"; "turn" := PInt t;
             "target" := PStr victim ]}.

(** What the peers send to bring the server to [doomed]: both register, "b"
    fires at "a" in each of the first ten turns, then "a" fires back. *)
Definition onslaught : list (option (string * payload)) :=
  [Some ("a", hello "play" "A"); Some ("b", hello "play" "B")] ++
  ((λ t : nat, Some ("b", order (Z.of_nat t) "a")) <$> seq 1 10) ++
  [Some ("a", order 11 "b")].

(** As many peers as there are starting positions: "p0", "p1", ... *)
Definition peers : list string :=
  (λ i : nat, "p" +:+ pretty i) <$> seq 0 (length starts).

(** The registration once every peer of [peers] has asked to play. *)
Definition full_house : Server :=
  {| players :=
       list_to_map ((λ p, (p, {| nick := "bot"; will := "play" |})) <$> peers);
     phase := registration; since := 1000%float;
     turn := None; actions := None; world := None |}.

(** A clock that gains twenty seconds at each reading. *)
Definition ticking : Env :=
  {| clock := λ n, Nat.iter n (λ t, t + 20)%float 1000%float;
     reads := 0; dice := λ _, 0%nat; rolls := 0; wire := [] |}.

(** A server in the third turn of a game over [duel]. *)
Definition midgame : Server :=
  {| players := two_players;
     phase := game; since := 1000%float; turn := Some 3;
     actions := Some ∅; world := Some duel |}.

(** An order for the second turn, which [midgame] has left behind. *)
Definition stale_order : gmap string pyval :=
  {[ "type" := PStr "action"; "turn" := PInt 2; "target" := PStr "b" ]}.

(** The server as [run] leaves it when it enters its first registration. *)
Definition fresh : Server :=
  {| players := ∅; phase := registration; since := 1000%float;
     turn := None; actions := None; world := None |}.

(** Two robots on their last ten hit points that fire at each other. *)
Definition standoff : World :=
  {| arena := (1600, 900);
     robots :=
       {[ "a" := {| move_from := Point.make 75 875;
                    move_to := Point.make 125 875;
                    damage := 10; target := Some "b"; hp := 10 |};
          "b" := {| move_from := Point.make 75 25;
                    move_to := Point.make 75 25;
                    damage := 10; target := Some "a"; hp := 10 |} ]};
     wrecks := ∅ |}.

(** The robot of "a" in [duel] once "b" has fired, and the world then. *)
Definition duel_casualty : Robot :=
  {| move_from := Point.make 75 875; move_to := Point.make 75 875;
     damage := 10; target := None; hp := 0 |}.

Definition duel_after : World :=
  {| arena := (1600, 900);
     robots :=
       {[ "b" := {| move_from := Point.make 75 25;
                    move_to := Point.make 75 25;
                    damage := 10; target := None; hp := 100 |} ]};
     wrecks := {[ "a" := duel_casualty ]} |}.

(** The world [generate_world] makes for [two_players] when the generator
    always draws 0. *)
Definition opening : World :=
  {| arena := (1600, 900);
     robots := {[ "a" := new_robot 75 875; "b" := new_robot 75 25 ]};
     wrecks := ∅ |}.

(** A registration where "a" and "b" have both asked to play. *)
Definition lobby : Server :=
  {| players := two_players; phase := registration; since := 1000%float;
     turn := None; actions := None; world := None |}.

(** ** Further notions *)

(** A robot once the third loop has carried out the order [a]. *)
Definition obeyed (a : Action) (r : Robot) : Robot :=
  with_target (act_target a)
    (with_move_to (default (move_from r) (act_move_to a)) r).

(** The robot of [n] outlives the damage of the turn that starts with the
    robots [rs]. *)
Definition survives (rs : gmap string Robot) (n : string) : Prop :=
  ∃ r, rs !! n = Some r ∧ 0 < hp r - incoming rs n.

(** A robot of [rs] after a whole turn with the pending actions [pending]. *)
Definition after_turn (rs : gmap string Robot)
    (pending : gmap string Action) (n : string) (r : Robot) : Robot :=
  {| move_from := move_to r;
     move_to := default (move_to r) (pending !! n ≫= act_move_to);
     damage := damage r;
     target := pending !! n ≫= act_target;
     hp := hp r - incoming rs n |}.

(** A robot as the server keeps it: the damage, the hit points and the place
    [generate_world] gave it, hit points apart. *)
Definition robot_ok (r : Robot) : Prop :=
  damage r = 10 ∧ hp r ≤ 100 ∧ move_from r = move_to r ∧
  ∃ x y, (x, y) ∈ starts ∧ move_to r = Point.make x y.

Definition world_ok (w : World) : Prop :=
  arena w = (1600, 900) ∧
  (∀ n r, robots w !! n = Some r →
     robot_ok r ∧ 0 < hp r ∧
     ∀ t, target r = Some t → t ∈ dom (robots w) ∪ dom (wrecks w)) ∧
  (∀ n r, wrecks w !! n = Some r → robot_ok r ∧ hp r ≤ 0 ∧ target r = None).

(** Pending actions as [_on_action] stores them. *)
Definition orders_ok (w : World) (pending : gmap string Action) : Prop :=
  ∀ n a, pending !! n = Some a →
    is_Some (robots w !! n) ∧ act_move_to a = None ∧
    ∀ t, act_target a = Some t → is_Some (robots w !! t).

(** What holds, besides [sound], of the server in every state it reaches. *)
Definition steady (s : Server) : Prop :=
  (is_Some (turn s) ↔ is_Some (world s)) ∧
  (is_Some (actions s) ↔ is_Some (world s)) ∧
  (phase s ≠ registration → is_Some (world s)) ∧
  (∀ w, world s = Some w →
     world_ok w ∧
     (phase s = game → (2 ≤ size (robots w))%nat) ∧
     (phase s = results → (size (robots w) ≤ 1)%nat) ∧
     (phase s ≠ registration →
        dom (robots w) ∪ dom (wrecks w) ⊆ dom (players s)) ∧
     (∀ pending, actions s = Some pending → orders_ok w pending)).

(** ** Further sample data *)

(** The first registration once "a" has said hello, and the environment
    then. *)
Definition first_in : Server :=
  {| players := {[ "a" := {| nick := "A"; will := "play" |} ]};
     phase := registration; since := 1000%float;
     turn := None; actions := None; world := None |}.

Definition first_in_env : Env :=
  {| clock := λ _, 1000%float; reads := 0; dice := λ _, 0%nat; rolls := 0;
     wire := [("a", Roster {[ "a" := {| nick := "A"; will := "play" |} ]})] |}.

(** An order of "a" for the third turn, at "b". *)
Definition fire_at_b : gmap string pyval :=
  {[ "type" := PStr "action"; "turn" := PInt 3; "target" := PStr "b" ]}.

(** [midgame] once "a" has sent [fire_at_b]. *)
Definition midgame_armed : Server :=
  {| players := two_players;
     phase := game; since := 1000%float; turn := Some 3;
     actions := Some {[ "a" := {| act_target := Some "b";
                                  act_move_to := None |} ]};
     world := Some duel |}.

(** The game that the tick of [lobby] opens when the clock reads 1010. *)
Definition kickoff : Server :=
  {| players := two_players; phase := game; since := 1010%float;
     turn := Some 1; actions := Some ∅; world := Some opening |}.

Definition kickoff_env : Env :=
  {| clock := λ _, 1010%float; reads := 3; dice := λ _, 0%nat; rolls := 2;
     wire := [("a", Sitrep opening 1); ("b", Sitrep opening 1)] |}.

(** [midgame] after the tick that plays its third turn: "b" has destroyed
    "a" and is alone, so the game is over. *)
Definition duel_settled : Server :=
  {| players := two_players; phase := results; since := 2000%float;
     turn := Some 3; actions := Some ∅; world := Some duel_after |}.

Definition duel_settled_env : Env :=
  {| clock := λ _, 2000%float; reads := 2; dice := λ _, 0%nat; rolls := 0;
     wire := [("a", Results duel_after 3); ("b", Results duel_after 3)] |}.

(** The registration that follows [duel_settled]. *)
Definition reopened : Server :=
  {| players := ∅; phase := registration; since := 2004%float;
     turn := Some 3; actions := Some ∅; world := Some duel_after |}.

Definition reopened_env : Env :=
  {| clock := λ _, 2004%float; reads := 2; dice := λ _, 0%nat; rolls := 0;
     wire := [("a", EndOfGame); ("b", EndOfGame)] |}.

(** The ['type'] of a message, when it is a dictionary with a string there. *)
Definition kind_of (message : payload) : option string :=
  match message with
  | Mapping fields =>
      match fields !! "type" with
      | Some (PStr kind) => Some kind
      | _ => None
      end
  | NotMapping => None
  end.

(** How many robots of [rs] aim at [victim]. *)
Definition attackers (rs : gmap string Robot) (victim : string) : nat :=
  length (filter (λ item, target item.2 = Some victim) (map_to_list rs)).

(** * Properties *)

(** ** Sending never fails *)

Lemma sent_nil e : sent e [] = e.
Proof. destruct e; unfold sent; simpl. by rewrite app_nil_r. Qed.

Lemma send_each_ok recipients message e :
  send_each recipients message e
  = Ok (tt, sent e ((λ r, (r, message)) <$> recipients)).
Proof.
  revert e. induction recipients as [|r rest IH]; intros e; simpl.
  - by rewrite sent_nil.
  - unfold mbind, M_bind, send_to. rewrite IH. unfold sent; simpl.
    by rewrite <- app_assoc.
Qed.

Lemma send_all_ok message s e :
  send_all message s e
  = Ok (tt, sent e ((λ r, (r, message)) <$> (map_to_list (players s)).*1)).
Proof. apply send_each_ok. Qed.

(** ** Strings and their code points *)

Lemma below_64 (P : N → Prop) :
  Forall P (N.of_nat <$> seq 0 64) → ∀ k, (k < 64)%N → P k.
Proof.
  intros Hall k Hk. rewrite Forall_forall in Hall. apply Hall.
  apply list_elem_of_fmap. exists (N.to_nat k). split; [lia|].
  apply elem_of_seq. lia.
Qed.

Lemma continuation_tail k :
  (k < 64)%N → continuation (ascii_of_N (128 + k)%N) = true.
Proof.
  revert k. apply below_64. repeat constructor.
Qed.

Lemma continuation_lead k :
  (k < 64)%N → continuation (ascii_of_N (192 + k)%N) = false.
Proof.
  revert k. apply below_64. repeat constructor.
Qed.

Lemma continuation_ascii k :
  (k < 128)%N → continuation (ascii_of_N k) = false.
Proof.
  intros Hk. destruct (decide (k < 64)%N) as [Hlow|Hhigh].
  - clear Hk. revert k Hlow. apply below_64. repeat constructor.
  - replace k with (64 + (k - 64))%N by lia.
    assert (Hs : (k - 64 < 64)%N) by lia. revert Hs.
    generalize (k - 64)%N. apply below_64. repeat constructor.
Qed.

Lemma utf8_bounds cp :
  ((cp mod 64 < 64) ∧ ((cp / 64) mod 64 < 64) ∧ ((cp / 4096) mod 64 < 64) ∧
   ((cp / 262144) mod 8 < 8) ∧
   (cp < 2048 → cp / 64 < 32) ∧ (cp < 65536 → cp / 4096 < 16))%N.
Proof.
  repeat split; try (apply N.mod_upper_bound; lia);
    intros Hcp; apply N.Div0.div_lt_upper_bound; lia.
Qed.

Lemma append_cons c s t : String c s +:+ t = String c (s +:+ t).
Proof. reflexivity. Qed.

Lemma utf8_char_shape cp :
  ∃ lead tail,
    utf8_char cp = String lead tail ∧ continuation lead = false ∧
    ∀ n rest, py_prefix n (tail +:+ rest) = tail +:+ py_prefix n rest.
Proof.
  assert (Htail : ∀ k, (k < 64)%N → ∀ tail,
    (∀ n rest, py_prefix n (tail +:+ rest) = tail +:+ py_prefix n rest) →
    ∀ n rest, py_prefix n (String (ascii_of_N (128 + k)%N) tail +:+ rest)
              = String (ascii_of_N (128 + k)%N) tail +:+ py_prefix n rest).
  { intros k Hk tail IH n rest. rewrite !append_cons. cbn [py_prefix].
    by rewrite continuation_tail, IH. }
  assert (Hnil : ∀ n rest, py_prefix n ("" +:+ rest) = "" +:+ py_prefix n rest)
    by done.
  destruct (utf8_bounds cp) as (B1 & B2 & B3 & B4 & B5 & B6).
  unfold utf8_char.
  destruct (N.ltb_spec cp 128) as [H1|H1]; [|destruct (N.ltb_spec cp 2048)
    as [H2|H2]; [|destruct (N.ltb_spec cp 65536) as [H3|H3]]].
  - eexists _, _. split; [done|]. split; [|done].
    apply continuation_ascii. lia.
  - eexists _, _. split; [done|]. split.
    + apply continuation_lead. lia.
    + apply Htail; [lia|done].
  - eexists _, _. split; [done|]. split.
    + replace (224 + cp / 4096)%N with (192 + (32 + cp / 4096))%N by lia.
      apply continuation_lead. lia.
    + apply Htail; [lia|]. apply Htail; [lia|done].
  - eexists _, _. split; [done|]. split.
    + replace (240 + (cp / 262144) mod 8)%N
        with (192 + (48 + (cp / 262144) mod 8))%N by lia.
      apply continuation_lead. lia.
    + apply Htail; [lia|]. apply Htail; [lia|]. apply Htail; [lia|done].
Qed.

Lemma py_prefix_utf8 n cps : py_prefix n (utf8 cps) = utf8 (take n cps).
Proof.
  revert n. induction cps as [|cp cps IH]; intros n; [by destruct n|].
  destruct (utf8_char_shape cp) as (lead & tail & Hshape & Hlead & Htail).
  cbn [utf8]. rewrite Hshape, append_cons. cbn [py_prefix]. rewrite Hlead.
  destruct n as [|n]; [done|].
  cbn [take utf8]. by rewrite Htail, IH, Hshape, append_cons.
Qed.

Lemma py_len_utf8 cps : py_len (utf8 cps) = length cps.
Proof.
  induction cps as [|cp cps IH]; [done|]. cbn [utf8 length].
  rewrite <- IH. clear IH. generalize (utf8 cps). intros rest.
  destruct (utf8_bounds cp) as (B1 & B2 & B3 & B4 & B5 & B6).
  unfold utf8_char.
  destruct (N.ltb_spec cp 128) as [H1|H1]; [|destruct (N.ltb_spec cp 2048)
    as [H2|H2]; [|destruct (N.ltb_spec cp 65536) as [H3|H3]]];
    rewrite ?append_cons; cbn [py_len];
    rewrite ?continuation_tail by lia.
  - by rewrite continuation_ascii by lia.
  - by rewrite continuation_lead by lia.
  - replace (224 + cp / 4096)%N with (192 + (32 + cp / 4096))%N by lia.
    by rewrite continuation_lead by lia.
  - replace (240 + (cp / 262144) mod 8)%N
      with (192 + (48 + (cp / 262144) mod 8))%N by lia.
    by rewrite continuation_lead by lia.
Qed.

(** Forty times U+017E, two characters each, cut to thirty-two of them. *)
Lemma py_prefix_beyond_ascii :
  utf8 [382%N] = "ž" ∧
  py_prefix 32 (utf8 (replicate 40 382%N)) = utf8 (replicate 32 382%N) ∧
  String.length (utf8 (replicate 32 382%N)) = 64%nat ∧
  py_len (utf8 (replicate 32 382%N)) = 32%nat.
Proof. by vm_compute. Qed.

Lemma py_prefix_length n s : (py_len (py_prefix n s) ≤ n)%nat.
Proof.
  revert n. induction s as [|c s IH]; intros n; cbn [py_prefix py_len]; [lia|].
  destruct (continuation c) eqn:Hc; cbn [py_len]; rewrite ?Hc; [apply IH|].
  destruct n as [|n]; cbn [py_len]; [lia|]. rewrite Hc. specialize (IH n). lia.
Qed.

Lemma outcome_ok {A} (r : result (A * Env)) a :
  outcome r = Ok a → ∃ e, r = Ok (a, e).
Proof. destruct r as [[a' e]|err]; simpl; [|done]. intros [= ->]. by exists e. Qed.

(** ** Running the monad *)

Lemma bind_ok {A B} (m : M A) (k : A → M B) e b e' :
  (m ≫= k) e = Ok (b, e') →
  ∃ a e1, m e = Ok (a, e1) ∧ k a e1 = Ok (b, e').
Proof.
  unfold mbind, M_bind. destruct (m e) as [[a e1]|err]; [|done]. by eauto.
Qed.

Lemma lift_ok {A} (r : result A) e a e' :
  lift r e = Ok (a, e') → r = Ok a ∧ e' = e.
Proof. unfold lift. destruct r; [|done]. by intros [= -> ->]. Qed.

Lemma attr_ok {A} name (field : option A) a :
  attr name field = Ok a → field = Some a.
Proof. destruct field; [|done]. by intros [= ->]. Qed.

Lemma ret_ok {A} (a : A) e b e' :
  (mret a : M A) e = Ok (b, e') → b = a ∧ e' = e.
Proof. by intros [= -> ->]. Qed.

Ltac unwind :=
  repeat match goal with
  | H : (_ ≫= _) _ = Ok _ |- _ =>
      apply bind_ok in H as (? & ? & ? & H)
  | H : lift _ _ = Ok _ |- _ => apply lift_ok in H as [H ->]
  | H : attr _ _ = Ok _ |- _ => apply attr_ok in H
  | H : @mret M _ _ _ _ = Ok _ |- _ => apply ret_ok in H as [-> ->]
  | H : time_time _ = Ok _ |- _ => injection H as <- <-
  | H : send_all _ _ _ = Ok _ |- _ => rewrite send_all_ok in H; injection H as <-
  end.

(** ** Reaching a state *)

Lemma session_reachable inputs s e s' e' :
  reachable s → session inputs s e = Ok (s', e') → reachable s'.
Proof.
  revert s e. induction inputs as [|incoming rest IH]; intros s e Hs; simpl.
  - by intros [= <- _].
  - unfold mbind, M_bind.
    destruct (iteration incoming s e) as [[s1 e1]|err] eqn:Hstep; [|done].
    apply IH. by eapply reach_step.
Qed.

Lemma run_reachable inputs e s' :
  outcome ((s ← begin_registration blank; session inputs s) e) = Ok s' →
  reachable s'.
Proof.
  intros [e' He]%outcome_ok. revert He. unfold mbind at 1, M_bind at 1.
  destruct (begin_registration blank e) as [[s0 e0]|err] eqn:Hstart; [|done].
  apply session_reachable. by eapply reach_start.
Qed.

Lemma doomed_reachable : reachable doomed.
Proof. apply (run_reachable onslaught ticking). vm_compute. reflexivity. Qed.

(** ** The starting positions and the sample *)

Lemma starts_length : length starts = 92%nat.
Proof. reflexivity. Qed.

Lemma starts_NoDup : NoDup starts.
Proof. apply (bool_decide_unpack _). by vm_compute. Qed.

(** Every starting position is 25 away from an edge of the 1600 by 900 arena
    and in the middle of a 50-wide cell along it. *)
Lemma starts_on_boundary x y :
  (x, y) ∈ starts →
  ((y = 25 ∨ y = 875) ∧ 75 ≤ x ≤ 1525 ∧ x mod 50 = 25) ∨
  ((x = 25 ∨ x = 1575) ∧ 75 ≤ y ≤ 825 ∧ y mod 50 = 25).
Proof.
  revert x y.
  assert (H : Forall (λ p : Z * Z,
    ((p.2 = 25 ∨ p.2 = 875) ∧ 75 ≤ p.1 ≤ 1525 ∧ p.1 mod 50 = 25) ∨
    ((p.1 = 25 ∨ p.1 = 1575) ∧ 75 ≤ p.2 ≤ 825 ∧ p.2 mod 50 = 25)) starts).
  { apply (bool_decide_unpack _). by vm_compute. }
  intros x y Hin. by apply (proj1 (Forall_forall _ _) H (x, y)).
Qed.

Lemma draw_returns {A} k : ∀ (pool : list A) e,
  ∃ l e', draw pool k e = Ok (l, e') ∧
          l ⊆+ pool ∧ (k ≤ length pool → length l = k)%nat.
Proof.
  induction k as [|k IH]; intros pool e; simpl.
  - exists [], e. split; [done|]. split; [apply submseteq_nil_l|done].
  - unfold mbind at 1, M_bind at 1, randbelow.
    set (j := (dice e (rolls e) mod length pool)%nat).
    set (e1 := Build_Env _ _ _ _ _).
    destruct (pool !! j) as [item|] eqn:Hj.
    + destruct (IH (delete j pool) e1) as (rest & e2 & Hdraw & Hsub & Hlen).
      exists (item :: rest), e2. unfold mbind, M_bind. rewrite Hdraw.
      split; [done|]. split.
      * rewrite (delete_Permutation pool j item Hj). by apply submseteq_skip.
      * intros Hk. simpl. rewrite Hlen; [done|].
        rewrite length_delete by eauto. lia.
    + exists [], e1. split; [done|]. split; [apply submseteq_nil_l|].
      intros Hk. apply lookup_ge_None in Hj.
      assert (j < length pool)%nat; [|lia].
      apply Nat.mod_upper_bound. lia.
Qed.

Lemma random_sample_returns {A} (population : list A) k e :
  (k ≤ length population)%nat →
  ∃ l e', random_sample population k e = Ok (l, e') ∧
          l ⊆+ population ∧ length l = k.
Proof.
  intros Hk. unfold random_sample. rewrite decide_False by lia.
  destruct (draw_returns k population e) as (l & e' & Hdraw & Hsub & Hlen).
  exists l, e'. auto.
Qed.

Lemma random_sample_too_large {A} (population : list A) k e :
  (length population < k)%nat →
  random_sample population k e = Raise ValueError.
Proof. intros Hk. unfold random_sample. by rewrite decide_True. Qed.

(** ** generate_world *)

Lemma list_pop_snoc {A} (l : list A) a : list_pop (l ++ [a]) = Some (a, l).
Proof.
  unfold list_pop. rewrite reverse_app. simpl. by rewrite reverse_involutive.
Qed.

Lemma list_pop_nil {A} : list_pop (@nil A) = None.
Proof. reflexivity. Qed.

(** The loop gives the robot of the i-th player the i-th position from the
    end. *)
Lemma deploy_reverse names : ∀ ps acc,
  length names = length ps →
  deploy names (reverse ps) acc
  = Ok (foldl (λ m np, <[np.1 := new_robot np.2.1 np.2.2]> m) acc
          (zip names ps)).
Proof.
  induction names as [|player names IH]; intros [|[x y] ps] acc Hlen;
    simpl in *; try done.
  rewrite reverse_cons, list_pop_snoc. apply IH. lia.
Qed.

Lemma deploy_short names : ∀ ps acc,
  (length ps < length names)%nat →
  deploy names (reverse ps) acc = Raise IndexError.
Proof.
  induction names as [|player names IH]; intros [|[x y] ps] acc Hlen;
    simpl in *; try lia; try done.
  rewrite reverse_cons, list_pop_snoc. apply IH. lia.
Qed.

Lemma placed_lookup (l : list (string * (Z * Z))) :
  ∀ (acc : gmap string Robot) n,
  NoDup l.*1 →
  (∀ p, (n, p) ∈ l →
     foldl (λ m np, <[np.1 := new_robot np.2.1 np.2.2]> m) acc l !! n
     = Some (new_robot p.1 p.2)) ∧
  (n ∉ l.*1 →
     foldl (λ m np, <[np.1 := new_robot np.2.1 np.2.2]> m) acc l !! n
     = acc !! n).
Proof.
  induction l as [|[a q] l IH]; intros acc n Hnodup.
  - split; [|done]. intros p Hin. by apply elem_of_nil in Hin.
  - simpl in Hnodup. apply NoDup_cons in Hnodup as [Hfresh Hnodup].
    destruct (IH (<[a := new_robot q.1 q.2]> acc) n Hnodup) as [IH1 IH2].
    simpl. split.
    + intros p [[= -> ->]|Hin]%elem_of_cons; [|by apply IH1].
      rewrite IH2 by done. apply lookup_insert_eq.
    + intros Hnot. apply not_elem_of_cons in Hnot as [Hne Hnot].
      rewrite IH2 by done. by apply lookup_insert_ne.
Qed.

Lemma placed_inv names ps n r :
  NoDup names → length names = length ps →
  foldl (λ (m : gmap string Robot) np, <[np.1 := new_robot np.2.1 np.2.2]> m)
    ∅ (zip names ps) !! n = Some r →
  ∃ p, (n, p) ∈ zip names ps ∧ r = new_robot p.1 p.2.
Proof.
  intros Hnodup Hlen Hr.
  assert (Hfst : (zip names ps).*1 = names) by (apply fst_zip; lia).
  destruct (placed_lookup (zip names ps) ∅ n) as [Hin Hout];
    [by rewrite Hfst|].
  destruct (decide (n ∈ names)) as [Hn|Hn].
  - rewrite <- Hfst in Hn. apply list_elem_of_fmap in Hn as ([n' p] & -> & Hp).
    exists p. split; [done|]. specialize (Hin p Hp). simpl in *. congruence.
  - rewrite <- Hfst in Hn. rewrite (Hout Hn), lookup_empty in Hr. done.
Qed.

Lemma placed_dom names ps :
  NoDup names → length names = length ps →
  dom (foldl (λ (m : gmap string Robot) np,
                <[np.1 := new_robot np.2.1 np.2.2]> m) ∅ (zip names ps))
  = list_to_set names.
Proof.
  intros Hnodup Hlen. apply set_eq. intros n.
  rewrite elem_of_dom, elem_of_list_to_set.
  assert (Hfst : (zip names ps).*1 = names) by (apply fst_zip; lia).
  destruct (placed_lookup (zip names ps) ∅ n) as [Hin Hout];
    [by rewrite Hfst|].
  split.
  - intros [r Hr]. destruct (decide (n ∈ names)) as [Hn|Hn]; [done|].
    rewrite <- Hfst in Hn. rewrite (Hout Hn), lookup_empty in Hr. done.
  - intros Hn. rewrite <- Hfst in Hn.
    apply list_elem_of_fmap in Hn as ([n' p] & -> & Hp).
    rewrite (Hin p Hp). by eexists.
Qed.

Lemma submseteq_NoDup {A} (l k : list A) : l ⊆+ k → NoDup k → NoDup l.
Proof.
  intros [rest Hperm]%submseteq_Permutation Hk.
  rewrite Hperm in Hk. by apply NoDup_app in Hk as [? _].
Qed.

Lemma zip_snd_inj {A B} (l : list (A * B)) a b p :
  NoDup l.*2 → (a, p) ∈ l → (b, p) ∈ l → a = b.
Proof.
  intros Hnodup [i Hi]%list_elem_of_lookup [j Hj]%list_elem_of_lookup.
  assert (i = j) as ->.
  { apply (NoDup_lookup l.*2 i j p Hnodup).
    - by rewrite list_lookup_fmap, Hi.
    - by rewrite list_lookup_fmap, Hj. }
  congruence.
Qed.

Lemma deploy_returns names l acc :
  length names = length l →
  deploy names l acc
  = Ok (foldl (λ m np, <[np.1 := new_robot np.2.1 np.2.2]> m) acc
          (zip names (reverse l))).
Proof.
  intros Hlen. pose proof (deploy_reverse names (reverse l) acc) as H.
  rewrite reverse_involutive in H. apply H. by rewrite length_reverse.
Qed.

Lemma generate_world_inv players e w e' :
  generate_world players e = Ok (w, e') →
  ∃ ps, ps ⊆+ starts ∧ length ps = size players ∧
    w = {| arena := (1600, 900);
           robots :=
             foldl (λ (m : gmap string Robot) np,
                      <[np.1 := new_robot np.2.1 np.2.2]> m)
               ∅ (zip (map_to_list players).*1 ps);
           wrecks := ∅ |}.
Proof.
  unfold generate_world, mbind at 1, M_bind at 1.
  destruct (decide (length starts < size players)%nat) as [Hbig|Hfits].
  { by rewrite random_sample_too_large. }
  destruct (random_sample_returns starts (size players) e)
    as (l & e1 & -> & Hsub & Hlen); [lia|].
  assert (Hnames : length (map_to_list players).*1 = length l).
  { by rewrite length_fmap, length_map_to_list, Hlen. }
  unfold mbind, M_bind, lift.
  rewrite deploy_returns by done.
  intros [= <- _]. exists (reverse l). split; [|split; [|done]].
  - by rewrite reverse_Permutation.
  - by rewrite length_reverse.
Qed.

(** [generate_world] returns whenever there are enough starting positions,
    and raises [ValueError] otherwise. *)
Lemma generate_world_returns players e :
  (size players ≤ length starts)%nat →
  ∃ w e', generate_world players e = Ok (w, e').
Proof.
  intros Hfits. unfold generate_world, mbind at 1, M_bind at 1.
  destruct (random_sample_returns starts (size players) e)
    as (l & e1 & -> & Hsub & Hlen); [done|].
  unfold mbind, M_bind, lift.
  rewrite deploy_returns; [by eauto|].
  by rewrite length_fmap, length_map_to_list, Hlen.
Qed.

Lemma generate_world_too_many players e :
  (length starts < size players)%nat →
  generate_world players e = Raise ValueError.
Proof.
  intros Hbig. unfold generate_world, mbind at 1, M_bind at 1.
  by rewrite random_sample_too_large.
Qed.

Lemma generate_world_places_fresh players e w e' :
  generate_world players e = Ok (w, e') →
  wrecks w = ∅ ∧
  ∀ n r, robots w !! n = Some r →
    ∃ x y, (x, y) ∈ starts ∧ r = new_robot x y.
Proof.
  intros (ps & Hsub & Hlen & ->)%generate_world_inv. simpl.
  split; [done|]. intros n r Hr.
  destruct (placed_inv _ ps _ _ (NoDup_fst_map_to_list players)
              ltac:(by rewrite length_fmap, length_map_to_list) Hr)
    as ([x y] & Hin & ->).
  exists x, y. split; [|done].
  apply elem_of_zip_r in Hin. by eapply elem_of_submseteq.
Qed.

Lemma generate_world_dom players e w e' :
  generate_world players e = Ok (w, e') → dom (robots w) = dom players.
Proof.
  intros (ps & Hsub & Hlen & ->)%generate_world_inv. simpl.
  rewrite placed_dom.
  - apply set_eq. intros n.
    rewrite elem_of_list_to_set, elem_of_dom, list_elem_of_fmap. split.
    + intros ([n' p] & -> & Hin). apply elem_of_map_to_list in Hin. by eexists.
    + intros [p Hp]. exists (n, p). split; [done|].
      by apply elem_of_map_to_list.
  - apply NoDup_fst_map_to_list.
  - by rewrite length_fmap, length_map_to_list.
Qed.

(** C6. A world that [generate_world] makes has one robot for each of the
    players it is given and for no one else, and no wrecks.  Each robot
    stands on a point of [starts], which is both its [move_from] and its
    [move_to], with 100 hit points, a damage of 10 and no target; two
    different robots stand on different points. *)
Theorem generate_world_places_everyone players e w e' :
  generate_world players e = Ok (w, e') →
  dom (robots w) = dom players ∧
  wrecks w = ∅ ∧
  (∀ n r, robots w !! n = Some r →
     ∃ x y, (x, y) ∈ starts ∧
       r = {| move_from := Point.make x y; move_to := Point.make x y;
              damage := 10; target := None; hp := 100 |}) ∧
  (∀ n1 n2 r1 r2, n1 ≠ n2 →
     robots w !! n1 = Some r1 → robots w !! n2 = Some r2 →
     move_from r1 ≠ move_from r2).
Proof.
  intros Hgen. split; [by eapply generate_world_dom|].
  destruct (generate_world_places_fresh _ _ _ _ Hgen) as [Hwrecks Hfresh].
  split; [done|]. split; [exact Hfresh|].
  apply generate_world_inv in Hgen as (ps & Hsub & Hlen & ->). simpl.
  pose proof (NoDup_fst_map_to_list players) as Hnames.
  assert (Hlen' : length (map_to_list players).*1 = length ps).
  { by rewrite length_fmap, length_map_to_list. }
  pose proof (submseteq_NoDup _ _ Hsub starts_NoDup) as Hps.
  intros n1 n2 r1 r2 Hne Hr1 Hr2 Heq.
  destruct (placed_inv _ _ _ _ Hnames Hlen' Hr1) as ([x1 y1] & Hin1 & ->).
  destruct (placed_inv _ _ _ _ Hnames Hlen' Hr2) as ([x2 y2] & Hin2 & ->).
  simpl in Heq. injection Heq as -> ->.
  apply Hne. eapply (zip_snd_inj _ n1 n2 (x2, y2)); [|done..].
  rewrite snd_zip; [done|lia].
Qed.

Lemma generate_world_places_everyone_witness :
  dom (robots opening) = dom two_players ∧
  wrecks opening = ∅ ∧
  (∀ n r, robots opening !! n = Some r →
     ∃ x y, (x, y) ∈ starts ∧
       r = {| move_from := Point.make x y; move_to := Point.make x y;
              damage := 10; target := None; hp := 100 |}) ∧
  (∀ n1 n2 r1 r2, n1 ≠ n2 →
     robots opening !! n1 = Some r1 → robots opening !! n2 = Some r2 →
     move_from r1 ≠ move_from r2).
Proof.
  apply (generate_world_places_everyone two_players (still 0%float) opening
           (Build_Env (λ _, 0%float) 0 (λ _, 0%nat) 2 [])).
  reflexivity.
Defined.

(** ** The first loop of update_world *)

Lemma hits_snoc rs seen a victim :
  hits rs (seen ++ [a]) victim = hits rs seen victim + blow rs victim a.
Proof.
  unfold hits. rewrite fmap_app, foldr_app. simpl.
  induction (blow rs victim <$> seen) as [|d l IH]; simpl; lia.
Qed.

Lemma midway_nil rs : midway rs [] = rs.
Proof.
  apply map_eq. intros n. unfold midway. rewrite map_lookup_imap.
  destruct (rs !! n) as [[]|]; simpl; [|done].
  unfold with_hp, hits. simpl. do 2 f_equal. lia.
Qed.

Lemma midway_lookup rs seen n :
  midway rs seen !! n =
  (λ r, if decide (n ∈ seen)
        then {| move_from := move_to r; move_to := move_to r;
                damage := damage r; target := None;
                hp := hp r - hits rs seen n |}
        else with_hp (hp r - hits rs seen n) r) <$> rs !! n.
Proof. unfold midway. rewrite map_lookup_imap. by destruct (rs !! n). Qed.

Lemma strike_midway rs seen a ra :
  a ∉ seen → rs !! a = Some ra →
  strike (midway rs seen) a = midway rs (seen ++ [a]).
Proof.
  intros Hnew Ha. unfold strike.
  rewrite (midway_lookup rs seen a), Ha. simpl.
  rewrite (decide_False _ _ Hnew). simpl.
  apply map_eq. intros n.
  rewrite (midway_lookup rs (seen ++ [a]) n), hits_snoc.
  unfold blow. rewrite Ha.
  rewrite lookup_alter.
  destruct (decide (a = n)) as [<-|Hne].
  - (* the robot of this pass *)
    rewrite Ha. simpl.
    rewrite decide_True by (apply elem_of_app; right; apply list_elem_of_singleton; done).
    destruct (target ra) as [v|] eqn:Htarget.
    + destruct (decide (v = a)) as [->|Hv].
      * rewrite lookup_insert_eq. rewrite lookup_insert_eq. simpl.
        rewrite decide_True by done.
        unfold with_target, with_hp, with_move_from. simpl. do 2 f_equal. lia.
      * rewrite (lookup_insert_ne _ a v) by done.
        rewrite decide_False by (intros [= ?]; done).
        destruct (midway rs seen !! v) as [rv|].
        -- rewrite lookup_insert_ne by done. rewrite lookup_insert_eq. simpl.
           unfold with_target, with_hp, with_move_from. simpl. do 2 f_equal. lia.
        -- rewrite lookup_insert_eq. simpl.
           unfold with_target, with_hp, with_move_from. simpl. do 2 f_equal. lia.
    + rewrite decide_False by done. rewrite lookup_insert_eq. simpl.
      unfold with_target, with_hp, with_move_from. simpl. do 2 f_equal. lia.
  - (* another robot *)
    assert (Hseen : n ∈ seen ++ [a] ↔ n ∈ seen).
    { rewrite elem_of_app, list_elem_of_singleton.
      split; [intros [Hin|Heq]; [done|by subst]|by left]. }
    destruct (target ra) as [v|] eqn:Htarget.
    + destruct (decide (v = n)) as [->|Hv].
      * rewrite lookup_insert_ne by done.
        rewrite (midway_lookup rs seen n).
        rewrite decide_True by done.
        destruct (rs !! n) as [rn|] eqn:Hn; simpl.
        -- rewrite lookup_insert_eq. f_equal.
           destruct (decide (n ∈ seen)) as [Hin|Hin].
           ++ rewrite decide_True by (by apply Hseen).
              unfold with_hp. simpl. f_equal. lia.
           ++ rewrite decide_False by (by rewrite Hseen).
              unfold with_hp. simpl. f_equal. lia.
        -- rewrite lookup_insert_ne by done.
           by rewrite (midway_lookup rs seen n), Hn.
      * rewrite decide_False by (intros [= ?]; done).
        assert (Hrest : ∀ m : gmap string Robot,
          m !! n = midway rs seen !! n →
          m !! n = (λ r, if decide (n ∈ seen ++ [a])
                then {| move_from := move_to r; move_to := move_to r;
                        damage := damage r; target := None;
                        hp := hp r - (hits rs seen n + 0) |}
                else with_hp (hp r - (hits rs seen n + 0)) r) <$> rs !! n).
        { intros m ->. rewrite (midway_lookup rs seen n).
          destruct (rs !! n) as [rn|]; simpl; [|done]. f_equal.
          destruct (decide (n ∈ seen)) as [Hin|Hin].
          - rewrite decide_True by (by apply Hseen). do 2 f_equal. lia.
          - rewrite decide_False by (by rewrite Hseen). do 2 f_equal. lia. }
        apply Hrest.
        destruct (decide (v = a)) as [->|Hva].
        -- rewrite lookup_insert_eq. rewrite lookup_insert_ne by done.
           by rewrite lookup_insert_ne by done.
        -- rewrite (lookup_insert_ne _ a v) by done.
           destruct (midway rs seen !! v) as [rv|].
           ++ rewrite lookup_insert_ne by done. by rewrite lookup_insert_ne by done.
           ++ by rewrite lookup_insert_ne by done.
    + rewrite decide_False by done.
      rewrite lookup_insert_ne by done.
      rewrite (midway_lookup rs seen n).
      destruct (rs !! n) as [rn|]; simpl; [|done]. f_equal.
      destruct (decide (n ∈ seen)) as [Hin|Hin].
      * rewrite decide_True by (by apply Hseen). do 2 f_equal. lia.
      * rewrite decide_False by (by rewrite Hseen). do 2 f_equal. lia.
Qed.

Lemma foldl_strike_midway rs todo : ∀ seen,
  NoDup (seen ++ todo) →
  (∀ a, a ∈ todo → is_Some (rs !! a)) →
  foldl strike (midway rs seen) todo = midway rs (seen ++ todo).
Proof.
  induction todo as [|a todo IH]; intros seen Hnodup Hdom; simpl.
  - by rewrite app_nil_r.
  - destruct (Hdom a) as [ra Ha]; [by left|].
    rewrite (strike_midway rs seen a ra); [|  |done].
    + rewrite IH.
      * by rewrite <- app_assoc.
      * by rewrite <- app_assoc.
      * intros b Hb. apply Hdom. by right.
    + apply NoDup_app in Hnodup as (_ & Hsep & _).
      intros Hin. apply (Hsep a Hin). by left.
Qed.

Lemma damage_phase_settled rs :
  damage_phase rs = map_imap (λ name r, Some (settled rs name r)) rs.
Proof.
  unfold damage_phase. rewrite <- (midway_nil rs) at 1.
  rewrite foldl_strike_midway.
  - apply map_eq. intros n. rewrite midway_lookup, map_lookup_imap. simpl.
    destruct (rs !! n) as [r|] eqn:Hn; simpl; [|done].
    rewrite decide_True; [done|].
    apply list_elem_of_fmap. exists (n, r). split; [done|].
    by apply elem_of_map_to_list.
  - simpl. apply NoDup_fst_map_to_list.
  - intros a [[a' r] [-> Hin]]%list_elem_of_fmap.
    apply elem_of_map_to_list in Hin. by exists r.
Qed.

Lemma damage_phase_lookup rs n :
  damage_phase rs !! n = settled rs n <$> rs !! n.
Proof.
  rewrite damage_phase_settled, map_lookup_imap. by destruct (rs !! n).
Qed.

Lemma damage_phase_dom rs : dom (damage_phase rs) = dom rs.
Proof.
  apply set_eq. intros n. rewrite !elem_of_dom, damage_phase_lookup.
  by rewrite fmap_is_Some.
Qed.

(** ** The second loop of update_world *)

Lemma foldl_scrap l : ∀ rs wk n,
  NoDup l.*1 →
  (∀ m r, (m, r) ∈ l → rs !! m = Some r) →
  (∀ r, (n, r) ∈ l → hp r ≤ 0 →
     (foldl scrap (rs, wk) l).1 !! n = None ∧
     (foldl scrap (rs, wk) l).2 !! n = Some r) ∧
  ((∀ r, (n, r) ∈ l → 0 < hp r) →
     (foldl scrap (rs, wk) l).1 !! n = rs !! n ∧
     (foldl scrap (rs, wk) l).2 !! n = wk !! n).
Proof.
  induction l as [|[a ra] l IH]; intros rs wk n Hnodup Hsnap.
  - simpl. split; [|done]. intros r Hin. by apply elem_of_nil in Hin.
  - simpl in Hnodup. apply NoDup_cons in Hnodup as [Hfresh Hnodup].
    assert (Hnot : ∀ r, (a, r) ∉ l).
    { intros r Hin. apply Hfresh. apply list_elem_of_fmap. by exists (a, r). }
    cbn [foldl]. unfold scrap at 2 4 6 8. cbn [fst snd].
    destruct (decide (hp ra ≤ 0)) as [Hdead|Halive].
    + destruct (IH (delete a rs) (<[a:=ra]> wk) n Hnodup) as [IH1 IH2].
      { intros m r Hin. rewrite lookup_delete_ne; [apply Hsnap; by right|].
        intros <-. by apply (Hnot r). }
      split.
      * intros r [[= -> ->]|Hin]%elem_of_cons Hr; [|by apply IH1].
        destruct IH2 as [-> ->]; [intros r Hin; by apply Hnot in Hin|].
        by rewrite lookup_delete_eq, lookup_insert_eq.
      * intros Hall.
        assert (a ≠ n) as Hne.
        { intros ->. specialize (Hall ra (list_elem_of_here _ _)). lia. }
        destruct IH2 as [-> ->]; [intros r Hin; apply Hall; by right|].
        by rewrite lookup_delete_ne, lookup_insert_ne.
    + destruct (IH rs wk n Hnodup) as [IH1 IH2].
      { intros m r Hin. apply Hsnap. by right. }
      split.
      * intros r [[= -> ->]|Hin]%elem_of_cons Hr; [lia|by apply IH1].
      * intros Hall. apply IH2. intros r Hin. apply Hall. by right.
Qed.

Lemma prune_dead rs wk n r :
  rs !! n = Some r → hp r ≤ 0 →
  (prune rs wk).1 !! n = None ∧ (prune rs wk).2 !! n = Some r.
Proof.
  intros Hn Hr. unfold prune.
  destruct (foldl_scrap (map_to_list rs) rs wk n) as [H1 _].
  - apply NoDup_fst_map_to_list.
  - intros m r'. apply elem_of_map_to_list.
  - apply H1; [by apply elem_of_map_to_list|done].
Qed.

Lemma prune_alive rs wk n :
  (∀ r, rs !! n = Some r → 0 < hp r) →
  (prune rs wk).1 !! n = rs !! n ∧ (prune rs wk).2 !! n = wk !! n.
Proof.
  intros Hr. unfold prune.
  destruct (foldl_scrap (map_to_list rs) rs wk n) as [_ H2].
  - apply NoDup_fst_map_to_list.
  - intros m r'. apply elem_of_map_to_list.
  - apply H2. intros r Hin. apply Hr. by apply elem_of_map_to_list.
Qed.

Lemma prune_robots_lookup rs wk n :
  (prune rs wk).1 !! n
  = rs !! n ≫= (λ r, if decide (hp r ≤ 0) then None else Some r).
Proof.
  destruct (rs !! n) as [r|] eqn:Hn; simpl.
  - destruct (decide (hp r ≤ 0)) as [Hd|Ha].
    + by destruct (prune_dead rs wk n r Hn Hd) as [-> _].
    + destruct (prune_alive rs wk n) as [-> _]; [|done].
      intros r'. rewrite Hn. intros [= <-]. lia.
  - destruct (prune_alive rs wk n) as [-> _]; [|done].
    intros r'. by rewrite Hn.
Qed.

Lemma prune_wrecks_lookup rs wk n :
  (prune rs wk).2 !! n
  = match rs !! n with
    | Some r => if decide (hp r ≤ 0) then Some r else wk !! n
    | None => wk !! n
    end.
Proof.
  destruct (rs !! n) as [r|] eqn:Hn; simpl.
  - destruct (decide (hp r ≤ 0)) as [Hd|Ha].
    + by destruct (prune_dead rs wk n r Hn Hd) as [_ ->].
    + destruct (prune_alive rs wk n) as [_ ->]; [|done].
      intros r'. rewrite Hn. intros [= <-]. lia.
  - destruct (prune_alive rs wk n) as [_ ->]; [|done].
    intros r'. by rewrite Hn.
Qed.

(** ** The third loop of update_world *)

Lemma obey_lookup rs item rs' n :
  obey rs item = Ok rs' →
  rs' !! n =
  (λ r, if decide (item.1 = n)
        then with_target (act_target item.2)
               (with_move_to (default (move_from r) (act_move_to item.2)) r)
        else r) <$> rs !! n.
Proof.
  unfold obey. destruct (rs !! item.1) as [r|] eqn:Hr; [|done].
  intros [= <-]. destruct (decide (item.1 = n)) as [<-|Hne].
  - by rewrite lookup_insert_eq, Hr.
  - rewrite lookup_insert_ne by done. by destruct (rs !! n).
Qed.

(** Obeying orders changes neither which robots there are nor their hit
    points. *)
Lemma absorb_lookup items : ∀ rs rs' n,
  absorb items rs = Ok rs' →
  hp <$> rs' !! n = hp <$> rs !! n.
Proof.
  induction items as [|item items IH]; intros rs rs' n; simpl.
  - by intros [= <-].
  - unfold mbind, result_bind.
    destruct (obey rs item) as [rs1|err] eqn:Hobey; [|done].
    intros Hrest. rewrite (IH _ _ n Hrest), (obey_lookup _ _ _ n Hobey).
    destruct (rs !! n) as [r|]; simpl; [|done]. by case_decide.
Qed.

Lemma absorb_dom items rs rs' :
  absorb items rs = Ok rs' → dom rs' = dom rs.
Proof.
  intros Habs. apply set_eq. intros n. rewrite !elem_of_dom.
  pose proof (absorb_lookup items rs rs' n Habs) as Hhp.
  rewrite <- !(fmap_is_Some hp). by rewrite Hhp.
Qed.

(** ** update_world as a whole *)

Lemma update_world_inv w pending w' :
  update_world w pending = Ok w' →
  let pruned := prune (damage_phase (robots w)) (wrecks w) in
  ∃ rs, absorb (map_to_list pending) pruned.1 = Ok rs ∧
        w' = {| arena := arena w; robots := rs; wrecks := pruned.2 |}.
Proof.
  unfold update_world, mbind, result_bind. simpl.
  destruct (absorb _ _) as [rs|err]; [|done].
  intros [= <-]. by exists rs.
Qed.

(** C3. The first loop of [update_world] goes through all the robots of the
    start of the turn, the ones that this turn destroys included: it leaves
    the same robots, each with its move committed, its target cleared, and
    its hit points lowered by the damage of every robot of the start of the
    turn that aimed at it.  Robots become wrecks afterwards only: the pruning
    works on the robots this loop leaves. *)
Theorem damage_settles_before_pruning w pending :
  let struck :=
    map_imap (λ name r, Some (settled (robots w) name r)) (robots w) in
  damage_phase (robots w) = struck ∧
  dom struck = dom (robots w) ∧
  update_world w pending =
    (rs ← absorb (map_to_list pending) (prune struck (wrecks w)).1;
     mret {| arena := arena w; robots := rs;
             wrecks := (prune struck (wrecks w)).2 |}).
Proof.
  cbv zeta. rewrite <- damage_phase_settled.
  split; [done|]. split; [apply damage_phase_dom|done].
Qed.

(** Two robots that destroy each other in the same turn: the first one to be
    visited is doomed and still fires. *)
Lemma standoff_both_wrecked :
  update_world standoff ∅
  = Ok {| arena := (1600, 900);
          robots := ∅;
          wrecks :=
            {[ "a" := {| move_from := Point.make 125 875;
                         move_to := Point.make 125 875;
                         damage := 10; target := None; hp := 0 |};
               "b" := {| move_from := Point.make 75 25;
                         move_to := Point.make 75 25;
                         damage := 10; target := None; hp := 0 |} ]} |}.
Proof. by vm_compute. Qed.

Lemma update_world_robots w pending w' n :
  update_world w pending = Ok w' →
  hp <$> robots w' !! n
  = damage_phase (robots w) !! n
      ≫= (λ r, if decide (hp r ≤ 0) then None else Some (hp r)).
Proof.
  intros (rs & Habs & ->)%update_world_inv. simpl.
  rewrite (absorb_lookup _ _ _ n Habs), prune_robots_lookup.
  destruct (damage_phase (robots w) !! n) as [r|]; simpl; [|done].
  by case_decide.
Qed.

Lemma update_world_wrecks w pending w' n :
  update_world w pending = Ok w' →
  wrecks w' !! n
  = match damage_phase (robots w) !! n with
    | Some r => if decide (hp r ≤ 0) then Some r else wrecks w !! n
    | None => wrecks w !! n
    end.
Proof.
  intros (rs & Habs & ->)%update_world_inv. simpl.
  apply prune_wrecks_lookup.
Qed.

Lemma update_world_robots_subseteq w pending w' :
  update_world w pending = Ok w' → dom (robots w') ⊆ dom (robots w).
Proof.
  intros Hup n. rewrite !elem_of_dom, <- !(fmap_is_Some hp).
  rewrite (update_world_robots _ _ _ n Hup), damage_phase_lookup.
  destruct (robots w !! n); simpl; [by eauto|]. by intros [? ?].
Qed.

Lemma update_world_disjoint w pending w' :
  dom (robots w) ## dom (wrecks w) →
  update_world w pending = Ok w' →
  dom (robots w') ## dom (wrecks w').
Proof.
  intros Hdisj Hup n. rewrite !elem_of_dom, <- (fmap_is_Some hp).
  rewrite (update_world_robots _ _ _ n Hup), (update_world_wrecks _ _ _ n Hup).
  destruct (damage_phase (robots w) !! n) as [r|] eqn:Hn; simpl.
  - destruct (decide (hp r ≤ 0)); [by intros [? ?]|].
    intros _ Hwk. apply (Hdisj n); [|by apply elem_of_dom].
    rewrite <- damage_phase_dom. apply elem_of_dom. by eexists.
  - by intros [? ?].
Qed.

Lemma update_world_wrecks_kept w pending w' n r :
  dom (robots w) ## dom (wrecks w) →
  update_world w pending = Ok w' →
  wrecks w !! n = Some r → wrecks w' !! n = Some r.
Proof.
  intros Hdisj Hup Hwk. rewrite (update_world_wrecks _ _ _ n Hup).
  destruct (damage_phase (robots w) !! n) as [r'|] eqn:Hn; [|done].
  exfalso. apply (Hdisj n); [|apply elem_of_dom; by eexists].
  rewrite <- damage_phase_dom. apply elem_of_dom. by eexists.
Qed.

Lemma turns_keep_wrecks orders : ∀ w w' n r,
  dom (robots w) ## dom (wrecks w) →
  turns orders w = Ok w' →
  wrecks w !! n = Some r →
  dom (robots w') ## dom (wrecks w') ∧ wrecks w' !! n = Some r.
Proof.
  induction orders as [|pending orders IH]; intros w w' n r Hdisj; simpl.
  - by intros [= <-].
  - unfold mbind, result_bind.
    destruct (update_world w pending) as [w1|err] eqn:Hup; [|done].
    intros Hrest Hwk. apply (IH w1); [|done|].
    + by eapply update_world_disjoint.
    + by eapply update_world_wrecks_kept.
Qed.

(** ** The pending actions of a turn *)

(** C1. A pending action whose sender lost its robot in the pruning is not
    discarded: [update_world] looks the robot up and raises [KeyError].  It
    happens in a game two peers can play: in [doomed] the robot of "a" is
    destroyed in the very turn for which "a" has sent an order, and the next
    tick of the server raises. *)
Theorem order_of_pruned_robot_raises :
  update_world duel {[ "a" := {| act_target := Some "b"; act_move_to := None |} ]}
  = Raise (KeyError "a") ∧
  reachable doomed ∧
  outcome (tick doomed (still 2000%float)) = Raise (KeyError "a").
Proof.
  split; [by vm_compute|]. split; [apply doomed_reachable|by vm_compute].
Qed.

(** ** Registration: the nick *)

(** C10. [_on_hello] never fails, whatever the message holds under ['nick']:
    it returns, and the record it stores for the sender has for nick the first
    32 code points of [str()] of that value, hence at most 32 of them; when
    the message has no ['nick'] the nick is ["None"]. *)
Theorem hello_stores_truncated_nick sender message s e :
  ∃ s' e' r,
    on_hello sender message s e = Ok (s', e') ∧
    players s' !! sender = Some r ∧
    nick r = py_prefix 32 (py_str (msg_get "nick" message)) ∧
    (py_len (nick r) ≤ 32)%nat ∧
    (∀ cps, py_str (msg_get "nick" message) = utf8 cps →
       nick r = utf8 (take 32 cps) ∧ py_len (nick r) = (length cps `min` 32)%nat) ∧
    (message !! "nick" = None → nick r = "None").
Proof.
  unfold on_hello.
  set (w := if decide (phase s = registration) then _ else _).
  set (r := {| nick := _; will := w |}).
  set (s' := Build_Server _ _ _ _ _ _).
  eexists s', _, r. split; [|split; [|split; [|split; [|split]]]].
  - unfold mbind, M_bind. rewrite send_all_ok. reflexivity.
  - apply lookup_insert_eq.
  - reflexivity.
  - apply py_prefix_length.
  - intros cps Hcps. cbn [nick r]. rewrite Hcps, py_prefix_utf8.
    split; [done|]. rewrite py_len_utf8, length_take. lia.
  - intros Hnone. simpl. unfold msg_get. rewrite Hnone. reflexivity.
Qed.

(** ** Registration: the capacity rule *)

Lemma record_get_want record : record_get "want" record = None.
Proof. reflexivity. Qed.

(** The test on the sender's earlier record reads the key ['want'], which no
    record of the roster has: once the starting positions are all taken,
    every hello of the registration is turned into a spectator's. *)
Lemma hello_at_capacity sender message s e s' e' :
  phase s = registration →
  (length starts ≤ size (active_players s))%nat →
  on_hello sender message s e = Ok (s', e') →
  will <$> players s' !! sender = Some "spectate".
Proof.
  intros Hphase Hfull. unfold on_hello, mbind at 1, M_bind at 1.
  rewrite send_all_ok. intros [= <- _]. simpl.
  rewrite lookup_insert_eq. simpl. f_equal.
  rewrite decide_True by done.
  rewrite decide_True; [by rewrite decide_True|].
  destruct (active_players s !! sender) as [record|]; simpl; [|done].
  by rewrite record_get_want.
Qed.

Lemma full_house_reachable : reachable full_house.
Proof.
  apply (run_reachable ((λ p, Some (p, hello "play" "bot")) <$> peers)
           (still 1000%float)).
  vm_compute. reflexivity.
Qed.

(** C2. A peer that is already an active player does not keep its place when
    it says hello again in a full registration: in [full_house], which the
    server reaches when as many peers as there are starting positions have
    registered, "p0" is an active player, and its second hello, asking to
    play, leaves it a spectator. *)
Theorem second_hello_at_capacity_demotes :
  reachable full_house ∧
  phase full_house = registration ∧
  size (active_players full_house) = length starts ∧
  will <$> active_players full_house !! "p0" = Some "play" ∧
  (λ s', players s' !! "p0") <$>
    outcome (on_hello "p0" (hello_fields "play" "bot") full_house
               (still 1001%float))
  = Ok (Some {| nick := "bot"; will := "spectate" |}).
Proof.
  split; [apply full_house_reachable|]. by vm_compute.
Qed.

(** ** Action intake *)

Lemma fresh_reachable : reachable fresh.
Proof. by eapply (reach_start (still 1000%float)). Qed.

Lemma action_without_robot sender message s w :
  world s = Some w → robots w !! sender = None →
  on_action sender message s = Ok s.
Proof.
  intros Hw Hnone. unfold on_action. rewrite Hw. simpl.
  unfold mbind, result_bind. by rewrite decide_True.
Qed.

(** C7. An action whose sender owns no robot is not always dropped in
    silence.  In the first registration of a server, a state [run] reaches as
    soon as it starts, the object has no [world] yet and [_on_action] raises
    [AttributeError] when it looks the sender up. *)
Theorem action_before_first_game_raises :
  reachable fresh ∧
  on_action "c0ffee" {[ "type" := PStr "action"; "turn" := PInt 0 ]} fresh
  = Raise (AttributeError "world").
Proof. split; [apply fresh_reachable | reflexivity]. Qed.

(** C9. An action whose ['turn'] differs from the server's turn changes
    nothing: [_on_action] returns with every attribute as it was, the pending
    actions among them.  (Before the first game the object has no turn and no
    pending actions; the handler then either returns the same way or stops on
    the missing attribute.) *)
Theorem action_for_another_turn_dropped sender message s :
  (∀ t, turn s = Some t → py_ne_int (msg_get "turn" message) t = true) →
  match on_action sender message s with
  | Ok s' => s' = s
  | Raise err =>
      (world s = None ∧ err = AttributeError "world") ∨
      (turn s = None ∧ err = AttributeError "turn")
  end.
Proof.
  intros Hturn. unfold on_action.
  destruct (world s) as [w|] eqn:Hw; simpl; [|by left].
  unfold mbind, result_bind.
  destruct (decide (robots w !! sender = None)); [done|].
  destruct (turn s) as [t|] eqn:Ht; simpl; [|by right].
  by rewrite (Hturn t eq_refl).
Qed.

Lemma action_for_another_turn_dropped_witness :
  py_ne_int (msg_get "turn" stale_order) 3 = true ∧
  match on_action "a" stale_order midgame with
  | Ok s' => s' = midgame
  | Raise err =>
      (world midgame = None ∧ err = AttributeError "world") ∨
      (turn midgame = None ∧ err = AttributeError "turn")
  end.
Proof.
  split; [reflexivity|].
  apply (action_for_another_turn_dropped "a" stale_order midgame).
  intros t Ht. injection Ht as <-. reflexivity.
Defined.

(** ** What every reachable state satisfies *)

Lemma no_self_target_obey rs item rs' :
  no_self_target rs → act_target item.2 ≠ Some item.1 →
  obey rs item = Ok rs' → no_self_target rs'.
Proof.
  intros Hrs Hitem Hobey n r'. rewrite (obey_lookup _ _ _ n Hobey).
  destruct (rs !! n) as [r|] eqn:Hn; simpl; [|done].
  intros [= <-]. case_decide as Heq.
  - simpl. by rewrite <- Heq.
  - by apply Hrs.
Qed.

Lemma no_self_target_absorb items : ∀ rs rs',
  no_self_target rs →
  (∀ item, item ∈ items → act_target item.2 ≠ Some item.1) →
  absorb items rs = Ok rs' → no_self_target rs'.
Proof.
  induction items as [|item items IH]; intros rs rs' Hrs Hitems; simpl.
  - by intros [= <-].
  - unfold mbind, result_bind.
    destruct (obey rs item) as [rs1|err] eqn:Hobey; [|done].
    apply IH.
    + eapply no_self_target_obey; [done| |done]. apply Hitems. by left.
    + intros item' Hin. apply Hitems. by right.
Qed.

Lemma damage_phase_clears rs n r :
  damage_phase rs !! n = Some r → target r = None.
Proof.
  rewrite damage_phase_lookup. destruct (rs !! n); [|done]. by intros [= <-].
Qed.

Lemma prune_robots_inv rs wk n r :
  (prune rs wk).1 !! n = Some r → rs !! n = Some r.
Proof.
  rewrite prune_robots_lookup. destruct (rs !! n) as [r'|]; simpl; [|done].
  by case_decide.
Qed.

Lemma update_world_no_self_target w pending w' :
  no_self_order pending →
  update_world w pending = Ok w' → no_self_target (robots w').
Proof.
  intros Hpending (rs & Habs & ->)%update_world_inv. simpl.
  eapply no_self_target_absorb; [| |exact Habs].
  - intros n r Hr%prune_robots_inv. by rewrite (damage_phase_clears _ _ _ Hr).
  - intros [n a] Hin%elem_of_map_to_list. by apply Hpending.
Qed.

Lemma no_self_order_empty : no_self_order ∅.
Proof. intros n a. by rewrite lookup_empty. Qed.

Lemma begin_registration_sound s e s' e' :
  sound s → begin_registration s e = Ok (s', e') → sound s'.
Proof.
  intros (_ & Hworld & Hactions) [= <- _]. split; [|done].
  unfold active_players. simpl. rewrite map_filter_empty, map_size_empty. lia.
Qed.

Lemma begin_results_sound s e s' e' :
  sound s → begin_results s e = Ok (s', e') → sound s'.
Proof.
  intros Hs H. unfold begin_results in H. unwind. exact Hs.
Qed.

Lemma sound_after_turn s w pending w' phase' since' turn' :
  sound s → world s = Some w → actions s = Some pending →
  update_world w pending = Ok w' →
  sound {| players := players s; phase := phase'; since := since';
           turn := turn'; actions := Some ∅; world := Some w' |}.
Proof.
  intros (Hcap & Hworld & Hactions) Hw Hp Hup.
  split; [done|]. split; simpl.
  - intros ? [= <-]. destruct (Hworld w Hw) as [_ Hdisj]. split.
    + eapply update_world_no_self_target; [|done]. by apply Hactions.
    + by eapply update_world_disjoint.
  - intros ? [= <-]. apply no_self_order_empty.
Qed.

Lemma tick_game_sound s e s' e' :
  sound s → tick_game s e = Ok (s', e') → sound s'.
Proof.
  intros Hs H. unfold tick_game in H.
  apply bind_ok in H as (now & e1 & Hnow & H).
  destruct (now <? since s + 1)%float; [by unwind|].
  apply bind_ok in H as (w & ? & Hw & H).
  apply bind_ok in H as (pending & ? & Hp & H).
  apply bind_ok in H as (w' & ? & Hup & H). unwind.
  destruct (decide (size (robots w') ≤ 1)%nat).
  - eapply begin_results_sound; [|done]. by eapply sound_after_turn.
  - unwind. by eapply sound_after_turn.
Qed.

Lemma generate_world_sound players e w e' :
  generate_world players e = Ok (w, e') →
  no_self_target (robots w) ∧ dom (robots w) ## dom (wrecks w).
Proof.
  intros Hgen.
  destruct (generate_world_places_fresh _ _ _ _ Hgen) as (Hwrecks & Hfresh).
  split.
  - intros n r Hr. destruct (Hfresh n r Hr) as (x & y & _ & ->). done.
  - rewrite Hwrecks, dom_empty_L. apply disjoint_empty_r.
Qed.

Lemma begin_game_sound s e s' e' :
  sound s → begin_game s e = Ok (s', e') → sound s'.
Proof.
  intros (Hcap & Hworld & Hactions) H. unfold begin_game in H.
  apply bind_ok in H as (w & e1 & Hgen & H).
  eapply tick_game_sound; [|done].
  split; [done|]. split; simpl.
  - intros ? [= <-]. by eapply generate_world_sound.
  - intros ? [= <-]. apply no_self_order_empty.
Qed.

Lemma tick_sound s e s' e' : sound s → tick s e = Ok (s', e') → sound s'.
Proof.
  intros Hs H. unfold tick in H. destruct (phase s).
  - unfold tick_registration in H.
    apply bind_ok in H as (now & e1 & Hnow & H).
    destruct (since s + 10 <=? now)%float; [|by unwind].
    destruct (decide (2 ≤ size (active_players s))%nat); [|by unwind].
    by eapply begin_game_sound.
  - by eapply tick_game_sound.
  - unfold tick_results in H.
    apply bind_ok in H as (now & e1 & Hnow & H).
    destruct (now <? since s + 3)%float; [by unwind|].
    apply bind_ok in H as ([] & e2 & _ & H).
    by eapply begin_registration_sound.
Qed.

Lemma hello_keeps_capacity (roster : gmap string PlayerRecord) sender r :
  (will r = "play" → (size (filter (λ item, will item.2 = "play") roster)
                      < length starts)%nat) →
  (size (filter (λ item, will item.2 = "play") roster) ≤ length starts)%nat →
  (size (filter (λ item, will item.2 = "play") (<[sender := r]> roster))
   ≤ length starts)%nat.
Proof.
  intros Hroom Hcap. destruct (decide (will r = "play")) as [Hplay|Hwatch].
  - rewrite map_filter_insert_True by done.
    pose proof (map_size_insert sender r
      (filter (λ item, will item.2 = "play") roster)) as Hsize.
    specialize (Hroom Hplay).
    destruct (filter _ roster !! sender); unfold id in Hsize; lia.
  - rewrite map_filter_insert_False by done.
    rewrite map_filter_delete.
    pose proof (map_size_delete sender
      (filter (λ item, will item.2 = "play") roster)) as Hsize.
    destruct (filter _ roster !! sender); unfold id in Hsize; lia.
Qed.

Lemma on_hello_sound sender message s e s' e' :
  sound s → on_hello sender message s e = Ok (s', e') → sound s'.
Proof.
  intros (Hcap & Hworld & Hactions) H. unfold on_hello in H.
  apply bind_ok in H as ([] & e1 & _ & H). unwind.
  split; [|done]. unfold active_players in *. simpl.
  apply hello_keeps_capacity; [|done]. simpl.
  destruct (decide (phase s = registration)) as [Hreg|Hgame].
  - rewrite decide_True.
    + case_decide as Hfull; [done|]. pose proof starts_length. lia.
    + destruct (filter _ (players s) !! sender); simpl; [|done].
      by rewrite record_get_want.
  - destruct (decide (_ ∧ phase s ≠ registration)) as [|Hnot]; [done|].
    intros Hplay. destruct Hnot. by split.
Qed.

Lemma on_action_sound sender message s s' :
  sound s → on_action sender message s = Ok s' → sound s'.
Proof.
  intros Hs H. unfold on_action in H.
  destruct (world s) as [w|] eqn:Hw; [|done]. simpl in H.
  unfold mbind, result_bind in H.
  destruct (decide (robots w !! sender = None)) as [?|Hrobot];
    [by injection H as <-|].
  destruct (turn s) as [t|]; [|done]. simpl in H.
  destruct (py_ne_int _ t); [by injection H as <-|].
  destruct (actions s) as [pending|] eqn:Hp; [|done]. simpl in H.
  destruct Hs as (Hcap & Hworld & Hactions).
  injection H as <-. split; [done|]. split; simpl.
  - intros ? [= <-]. by apply Hworld.
  - intros ? [= <-] m a. destruct (decide (sender = m)) as [<-|Hne].
    + rewrite lookup_insert_eq. intros [= <-]. simpl.
      destruct (msg_get "target" message) as [| | | |name| |]; try done.
      destruct (decide (name ≠ sender)); [|done].
      destruct (decide (is_Some (robots w !! name))); [|done]. congruence.
    + rewrite lookup_insert_ne by done. by apply Hactions.
Qed.

Lemma dispatch_sound sender message s e s' e' :
  sound s → dispatch sender message s e = Ok (s', e') → sound s'.
Proof.
  intros Hs H. unfold dispatch in H.
  destruct message as [fields|]; [|by unwind].
  destruct (fields !! "type") as [[| | | |kind| |]|]; try by unwind.
  destruct (decide (kind = "hello")); [by eapply on_hello_sound|].
  destruct (decide (kind = "action")); [|by unwind].
  apply lift_ok in H as [H _]. by eapply on_action_sound.
Qed.

Lemma iteration_sound incoming s e s' e' :
  sound s → iteration incoming s e = Ok (s', e') → sound s'.
Proof.
  intros Hs H. unfold iteration in H.
  apply bind_ok in H as (s1 & e1 & Htick & H).
  pose proof (tick_sound _ _ _ _ Hs Htick) as Hs1.
  destruct incoming as [[sender message]|]; [|by unwind].
  by eapply dispatch_sound.
Qed.

Lemma reachable_sound s : reachable s → sound s.
Proof.
  induction 1 as [e s e' Hstart|s incoming e s' e' _ IH Hstep].
  - eapply begin_registration_sound; [|done].
    split; [|done]. unfold active_players. simpl.
    rewrite map_filter_empty, map_size_empty. lia.
  - by eapply iteration_sound.
Qed.

(** ** Targets *)

Lemma sound_targets_apart s : sound s → targets_apart s.
Proof.
  intros (_ & Hworld & Hactions). split; [|done].
  intros w Hw. by destruct (Hworld w Hw).
Qed.

(** C8. In every state the server reaches, no robot has its own identity for
    target and no pending order names its own sender.  It stays so when
    [_on_action] takes one more order, when [update_world] carries out the
    pending ones, and in the middle of [update_world]: the first loop leaves
    every robot without a target. *)
Theorem no_robot_targets_itself s :
  reachable s →
  targets_apart s ∧
  (∀ sender message s',
     on_action sender message s = Ok s' → targets_apart s') ∧
  (∀ w pending w',
     world s = Some w → actions s = Some pending →
     update_world w pending = Ok w' → no_self_target (robots w')) ∧
  (∀ w n r,
     world s = Some w → damage_phase (robots w) !! n = Some r →
     target r = None).
Proof.
  intros Hs%reachable_sound. split; [by apply sound_targets_apart|].
  split; [|split].
  - intros sender message s' Hact. apply sound_targets_apart.
    by eapply on_action_sound.
  - intros w pending w' Hw Hp Hup. destruct Hs as (_ & _ & Hactions).
    eapply update_world_no_self_target; [|done]. by apply Hactions.
  - intros w n r _ Hr. by eapply damage_phase_clears.
Qed.

Lemma no_robot_targets_itself_witness :
  targets_apart doomed ∧
  (∀ sender message s',
     on_action sender message doomed = Ok s' → targets_apart s') ∧
  (∀ w pending w',
     world doomed = Some w → actions doomed = Some pending →
     update_world w pending = Ok w' → no_self_target (robots w')) ∧
  (∀ w n r,
     world doomed = Some w → damage_phase (robots w) !! n = Some r →
     target r = None).
Proof.
  apply (no_robot_targets_itself doomed).
  apply (run_reachable onslaught ticking). vm_compute. reflexivity.
Defined.

(** ** Wrecks *)

Lemma turns_disjoint orders : ∀ w w',
  dom (robots w) ## dom (wrecks w) →
  turns orders w = Ok w' →
  dom (robots w') ## dom (wrecks w').
Proof.
  induction orders as [|pending orders IH]; intros w w' Hdisj; simpl.
  - by intros [= <-].
  - unfold mbind, result_bind.
    destruct (update_world w pending) as [w1|err] eqn:Hup; [|done].
    apply IH. by eapply update_world_disjoint.
Qed.

Lemma wreck_is_no_robot w n r :
  dom (robots w) ## dom (wrecks w) →
  wrecks w !! n = Some r → robots w !! n = None.
Proof.
  intros Hdisj Hwk. apply not_elem_of_dom. intros Hin.
  apply (Hdisj n Hin). apply elem_of_dom. by eexists.
Qed.

(** C4. Take the world of the server in any state it reaches.  Its robots and
    its wrecks share no key, and they share none after a turn of
    [update_world] nor after any number of further turns.  A robot that the
    damage of a turn leaves with no hit points was no wreck before the turn
    and is, when [update_world] returns, a wreck and no longer a robot.
    Whatever is a wreck after the turn is the same wreck after any further
    turns and is no robot then: it is moved once and never taken out. *)
Theorem wrecked_once_and_for_all s w :
  reachable s → world s = Some w →
  dom (robots w) ## dom (wrecks w) ∧
  ∀ pending w1, update_world w pending = Ok w1 →
    dom (robots w1) ## dom (wrecks w1) ∧
    (∀ n r, wrecks w !! n = Some r →
       wrecks w1 !! n = Some r ∧ robots w1 !! n = None) ∧
    (∀ n r, damage_phase (robots w) !! n = Some r → hp r ≤ 0 →
       wrecks w !! n = None ∧
       wrecks w1 !! n = Some r ∧ robots w1 !! n = None) ∧
    ∀ later w2, turns later w1 = Ok w2 →
      dom (robots w2) ## dom (wrecks w2) ∧
      ∀ n r, wrecks w1 !! n = Some r →
        wrecks w2 !! n = Some r ∧ robots w2 !! n = None.
Proof.
  intros (_ & Hworld & _)%reachable_sound Hw.
  destruct (Hworld w Hw) as [_ Hdisj].
  split; [done|]. intros pending w1 Hup.
  pose proof (update_world_disjoint _ _ _ Hdisj Hup) as Hdisj1.
  split; [done|]. split; [|split].
  - intros n r Hwk.
    pose proof (update_world_wrecks_kept w pending w1 n r Hdisj Hup Hwk)
      as Hwk1.
    split; [done|]. exact (wreck_is_no_robot w1 n r Hdisj1 Hwk1).
  - intros n r Hn Hdead.
    assert (Hwk1 : wrecks w1 !! n = Some r).
    { rewrite (update_world_wrecks _ _ _ n Hup), Hn. by rewrite decide_True. }
    split; [|split; [done|exact (wreck_is_no_robot w1 n r Hdisj1 Hwk1)]].
    apply not_elem_of_dom. intros Hin. apply (Hdisj n); [|done].
    rewrite <- damage_phase_dom. apply elem_of_dom. by eexists.
  - intros later w2 Hlater.
    pose proof (turns_disjoint later w1 w2 Hdisj1 Hlater) as Hdisj2.
    split; [done|]. intros n r Hwk1.
    destruct (turns_keep_wrecks later w1 w2 n r Hdisj1 Hlater Hwk1)
      as [_ Hwk2].
    split; [done|]. exact (wreck_is_no_robot w2 n r Hdisj2 Hwk2).
Qed.

Lemma wrecked_once_and_for_all_witness :
  dom (robots duel) ## dom (wrecks duel) ∧
  ∀ pending w1, update_world duel pending = Ok w1 →
    dom (robots w1) ## dom (wrecks w1) ∧
    (∀ n r, wrecks duel !! n = Some r →
       wrecks w1 !! n = Some r ∧ robots w1 !! n = None) ∧
    (∀ n r, damage_phase (robots duel) !! n = Some r → hp r ≤ 0 →
       wrecks duel !! n = None ∧
       wrecks w1 !! n = Some r ∧ robots w1 !! n = None) ∧
    ∀ later w2, turns later w1 = Ok w2 →
      dom (robots w2) ## dom (wrecks w2) ∧
      ∀ n r, wrecks w1 !! n = Some r →
        wrecks w2 !! n = Some r ∧ robots w2 !! n = None.
Proof.
  apply (wrecked_once_and_for_all doomed duel).
  - apply (run_reachable onslaught ticking). vm_compute. reflexivity.
  - reflexivity.
Defined.

(** ** From the registration to the game *)

Lemma hits_no_target rs attackers victim :
  (∀ a r, rs !! a = Some r → target r = None) →
  hits rs attackers victim = 0.
Proof.
  intros Hnone. unfold hits.
  induction attackers as [|a attackers IH]; [done|].
  rewrite fmap_cons. cbn [foldr]. rewrite IH. unfold blow. destruct (rs !! a) as [r|] eqn:Ha; [|done].
  rewrite (Hnone a r Ha). by rewrite decide_False.
Qed.

(** The first turn of a game destroys nothing. *)
Lemma first_turn players e w e' :
  generate_world players e = Ok (w, e') →
  ∃ w', update_world w ∅ = Ok w' ∧ size (robots w') = size players.
Proof.
  intros Hgen.
  pose proof (generate_world_dom _ _ _ _ Hgen) as Hdom.
  destruct (generate_world_places_fresh _ _ _ _ Hgen) as [_ Hfresh].
  unfold update_world. rewrite map_to_list_empty. simpl.
  eexists. split; [done|]. simpl.
  rewrite <- (size_dom (D := gset string) players), <- Hdom.
  rewrite <- (size_dom (D := gset string)). f_equal.
  apply set_eq. intros n. rewrite !elem_of_dom.
  rewrite prune_robots_lookup, damage_phase_lookup.
  destruct (robots w !! n) as [r|] eqn:Hr; simpl; [|done].
  destruct (Hfresh n r Hr) as (x & y & _ & ->).
  rewrite decide_False; [done|]. simpl. unfold incoming.
  rewrite hits_no_target; [lia|].
  intros a r Ha. by destruct (Hfresh a r Ha) as (? & ? & _ & ->).
Qed.

Lemma begin_game_starts s e :
  (2 ≤ size (active_players s) ≤ length starts)%nat →
  ∃ s' e', begin_game s e = Ok (s', e') ∧ phase s' = game.
Proof.
  intros [Htwo Hcap]. unfold begin_game.
  change (active_players (Build_Server (players s) _ _ _ _ _))
    with (active_players s).
  destruct (generate_world_returns (active_players s) e Hcap)
    as (w & e1 & Hgen).
  unfold mbind at 1, M_bind at 1. rewrite Hgen.
  destruct (first_turn _ _ _ _ Hgen) as (w' & Hup & Hsize).
  unfold tick_game, mbind at 1, M_bind at 1, time_time. cbn [since].
  destruct (_ <? _)%float; [by eexists _, _|].
  cbn [world actions turn attr lift]. unfold mbind, M_bind, lift.
  rewrite Hup. rewrite decide_False by lia.
  cbn [attr]. unfold time_time. rewrite send_all_ok. by eexists _, _.
Qed.

(** C5. In the registration, [_tick_registration] takes the server to the
    game exactly when the clock reads at least [since + 10.0] and at least
    two players are active.  When one of the two fails, the tick returns with
    every attribute of the server as it was and sends nothing. *)
Theorem registration_ends_iff s e :
  reachable s → phase s = registration →
  ((∃ s' e', tick_registration s e = Ok (s', e') ∧ phase s' = game) ↔
   (since s + 10 <=? clock e (reads e))%float = true ∧
   (2 ≤ size (active_players s))%nat) ∧
  (¬ ((since s + 10 <=? clock e (reads e))%float = true ∧
      (2 ≤ size (active_players s))%nat) →
   ∃ e', tick_registration s e = Ok (s, e') ∧ wire e' = wire e).
Proof.
  intros (Hcap & _)%reachable_sound Hphase.
  assert (Hidle : ¬ ((since s + 10 <=? clock e (reads e))%float = true ∧
                     (2 ≤ size (active_players s))%nat) →
                  ∃ e', tick_registration s e = Ok (s, e') ∧ wire e' = wire e).
  { intros Hnot. unfold tick_registration, mbind, M_bind, time_time.
    destruct (_ <=? _)%float; [|by eexists].
    destruct (decide (2 ≤ size (active_players s))%nat); [|by eexists].
    by destruct Hnot. }
  split; [|done]. split.
  - intros (s' & e' & Htick & Hgame).
    destruct (decide ((since s + 10 <=? clock e (reads e))%float = true ∧
                      (2 ≤ size (active_players s))%nat)) as [|Hnot]; [done|].
    destruct (Hidle Hnot) as (e1 & Hsame & _). congruence.
  - intros [Hdue Htwo]. unfold tick_registration, mbind, M_bind, time_time.
    rewrite Hdue, decide_True by done.
    by apply begin_game_starts.
Qed.

Lemma lobby_reachable : reachable lobby.
Proof.
  apply (run_reachable
           [Some ("a", hello "play" "A"); Some ("b", hello "play" "B")]
           (still 1000%float)).
  vm_compute. reflexivity.
Qed.

Lemma registration_ends_iff_witness :
  ((∃ s' e', tick_registration lobby (still 1010%float) = Ok (s', e') ∧
             phase s' = game) ↔
   (since lobby + 10 <=? 1010)%float = true ∧
   (2 ≤ size (active_players lobby))%nat) ∧
  (¬ ((since lobby + 10 <=? 1010)%float = true ∧
      (2 ≤ size (active_players lobby))%nat) →
   ∃ e', tick_registration lobby (still 1010%float) = Ok (lobby, e') ∧
         wire e' = wire (still 1010%float)).
Proof.
  apply (registration_ends_iff lobby (still 1010%float)).
  - apply lobby_reachable.
  - reflexivity.
Defined.

(** * Further properties *)

(** ** The engine: a whole turn *)

Lemma obey_ok rs item :
  is_Some (rs !! item.1) → ∃ rs', obey rs item = Ok rs' ∧ dom rs' = dom rs.
Proof.
  intros [r Hr]. unfold obey. rewrite Hr. eexists. split; [done|].
  apply dom_insert_lookup_L. by eexists.
Qed.

Lemma obey_raises rs item :
  rs !! item.1 = None → obey rs item = Raise (KeyError item.1).
Proof. intros Hr. unfold obey. by rewrite Hr. Qed.

(** The third loop returns exactly when every order is for a robot. *)
Lemma absorb_outcome items : ∀ rs,
  match absorb items rs with
  | Ok rs' => ∀ n, n ∈ items.*1 → is_Some (rs !! n)
  | Raise err => ∃ n, err = KeyError n ∧ n ∈ items.*1 ∧ rs !! n = None
  end.
Proof.
  induction items as [|item items IH]; intros rs; simpl.
  - intros n Hn. by apply elem_of_nil in Hn.
  - unfold mbind, result_bind.
    destruct (rs !! item.1) as [r|] eqn:Hr.
    + destruct (obey_ok rs item) as (rs1 & -> & Hdom); [by eexists|].
      specialize (IH rs1). destruct (absorb items rs1) as [rs'|err].
      * intros n [->|Hn]%elem_of_cons; [by eexists|].
        apply elem_of_dom. rewrite <- Hdom. apply elem_of_dom. by apply IH.
      * destruct IH as (n & -> & Hn & Hnone). exists n.
        split; [done|]. split; [by right|].
        apply not_elem_of_dom. rewrite <- Hdom. by apply not_elem_of_dom.
    + rewrite (obey_raises _ _ Hr). exists item.1.
      split; [done|]. split; [by left|done].
Qed.

Lemma absorb_spec items : ∀ rs rs' n,
  NoDup items.*1 → absorb items rs = Ok rs' →
  (∀ a, (n, a) ∈ items → rs' !! n = obeyed a <$> rs !! n) ∧
  (n ∉ items.*1 → rs' !! n = rs !! n).
Proof.
  induction items as [|[m a] items IH]; intros rs rs' n Hnodup; simpl.
  - intros [= <-]. split; [|done]. intros a Hin. by apply elem_of_nil in Hin.
  - apply NoDup_cons in Hnodup as [Hfresh Hnodup].
    unfold mbind, result_bind.
    destruct (obey rs (m, a)) as [rs1|err] eqn:Hobey; [|done].
    intros Habs. destruct (IH rs1 rs' n Hnodup Habs) as [IH1 IH2].
    pose proof (obey_lookup _ _ _ n Hobey) as Hstep. simpl in Hstep.
    split.
    + intros a' [[= <- <-]|Hin]%elem_of_cons.
      * rewrite IH2 by done. rewrite Hstep.
        destruct (rs !! n); simpl; [|done]. by rewrite decide_True.
      * rewrite (IH1 a' Hin), Hstep.
        destruct (rs !! n); simpl; [|done]. rewrite decide_False; [done|].
        intros ->. apply Hfresh. apply list_elem_of_fmap. by exists (n, a').
    + intros [Hne Hnot]%not_elem_of_cons. rewrite (IH2 Hnot), Hstep.
      destruct (rs !! n); simpl; [|done]. by rewrite decide_False.
Qed.

Lemma survivor_lookup rs wk n :
  (prune (damage_phase rs) wk).1 !! n
  = rs !! n ≫= (λ r, if decide (hp r - incoming rs n ≤ 0) then None
                     else Some (settled rs n r)).
Proof.
  rewrite prune_robots_lookup, damage_phase_lookup.
  by destruct (rs !! n).
Qed.

Lemma survivor_is_Some rs wk n :
  is_Some ((prune (damage_phase rs) wk).1 !! n) ↔ survives rs n.
Proof.
  rewrite survivor_lookup. unfold survives.
  destruct (rs !! n) as [r|]; simpl.
  - destruct (decide (hp r - incoming rs n ≤ 0)); split.
    + by intros [? ?].
    + intros (r' & [= <-] & Hpos). lia.
    + intros _. exists r. split; [done|lia].
    + by eauto.
  - split; [by intros [? ?]|]. by intros (r & ? & _).
Qed.

(** [update_world] raises nothing but the [KeyError] of its third loop. *)
Lemma update_world_outcome w pending :
  match update_world w pending with
  | Ok w' => ∀ n, n ∈ dom pending → survives (robots w) n
  | Raise err =>
      ∃ n, err = KeyError n ∧ n ∈ dom pending ∧ ¬ survives (robots w) n
  end.
Proof.
  unfold update_world, mbind, result_bind. simpl.
  pose proof (absorb_outcome (map_to_list pending)
    (prune (damage_phase (robots w)) (wrecks w)).1) as Hout.
  assert (Hdom : ∀ n, n ∈ (map_to_list pending).*1 ↔ n ∈ dom pending).
  { intros n. rewrite elem_of_dom, list_elem_of_fmap. split.
    - intros ([n' a] & -> & Hin). apply elem_of_map_to_list in Hin. by eexists.
    - intros [a Ha]. exists (n, a). split; [done|].
      by apply elem_of_map_to_list. }
  destruct (absorb _ _) as [rs|err].
  - intros n Hn. apply (survivor_is_Some _ (wrecks w)). apply Hout.
    by apply Hdom.
  - destruct Hout as (n & -> & Hn & Hnone). exists n.
    split; [done|]. split; [by apply Hdom|].
    intros Hs%(survivor_is_Some _ (wrecks w)). rewrite Hnone in Hs.
    by destruct Hs.
Qed.

(** X1. [update_world] returns exactly when every pending action is for a
    robot that outlives the damage of this turn.  Otherwise it raises
    [KeyError] for the sender of a pending action that has no robot left,
    and it raises nothing else. *)
Theorem update_world_returns_iff_orders_survive w pending :
  ((∃ w', update_world w pending = Ok w') ↔
   (∀ n, n ∈ dom pending → survives (robots w) n)) ∧
  (∀ err, update_world w pending = Raise err →
     ∃ n, err = KeyError n ∧ n ∈ dom pending ∧ ¬ survives (robots w) n).
Proof.
  pose proof (update_world_outcome w pending) as Hout.
  destruct (update_world w pending) as [w'|err]; split.
  - split; [done|by eauto].
  - done.
  - split; [by intros [? ?]|].
    intros Hall. destruct Hout as (n & _ & Hn & Hnot).
    destruct Hnot. by apply Hall.
  - by intros ? [= <-].
Qed.

Lemma update_world_robot w pending w' n :
  update_world w pending = Ok w' →
  robots w' !! n
  = robots w !! n ≫= (λ r, if decide (hp r - incoming (robots w) n ≤ 0)
                           then None
                           else Some (after_turn (robots w) pending n r)).
Proof.
  intros (rs & Habs & ->)%update_world_inv. simpl.
  destruct (absorb_spec _ _ _ n (NoDup_fst_map_to_list pending) Habs)
    as [Hin Hout].
  destruct (pending !! n) as [a|] eqn:Ha.
  - rewrite (Hin a) by (by apply elem_of_map_to_list).
    rewrite survivor_lookup.
    destruct (robots w !! n) as [r|]; simpl; [|done].
    case_decide; [done|]. simpl. unfold after_turn. by rewrite Ha.
  - rewrite Hout, survivor_lookup.
    + destruct (robots w !! n) as [r|]; simpl; [|done].
      case_decide; [done|]. unfold after_turn. by rewrite Ha.
    + intros ([n' a] & -> & Hin')%list_elem_of_fmap.
      apply elem_of_map_to_list in Hin'. simpl in Ha. congruence.
Qed.

Lemma update_world_wreck w pending w' n :
  update_world w pending = Ok w' →
  wrecks w' !! n
  = match robots w !! n with
    | Some r => if decide (hp r - incoming (robots w) n ≤ 0)
                then Some (settled (robots w) n r) else wrecks w !! n
    | None => wrecks w !! n
    end.
Proof.
  intros Hup. rewrite (update_world_wrecks _ _ _ n Hup), damage_phase_lookup.
  by destruct (robots w !! n).
Qed.

(** X2. When [update_world] returns, each robot of the start of the turn is
    accounted for.  One left with no hit points is a wreck, with its move
    committed and its target cleared.  Any other is still a robot: its
    [move_from] is its former [move_to], its hit points are lowered by the
    damage aimed at it, its target and destination are those of its owner's
    pending action (no target and no move without one).  Nothing else becomes
    a robot or a wreck. *)
Theorem update_world_accounts_for_every_robot w pending w' n :
  update_world w pending = Ok w' →
  match robots w !! n with
  | Some r =>
      if decide (hp r - incoming (robots w) n ≤ 0)
      then robots w' !! n = None ∧
           wrecks w' !! n = Some (settled (robots w) n r)
      else robots w' !! n = Some (after_turn (robots w) pending n r) ∧
           wrecks w' !! n = wrecks w !! n
  | None => robots w' !! n = None ∧ wrecks w' !! n = wrecks w !! n
  end.
Proof.
  intros Hup.
  rewrite (update_world_robot _ _ _ n Hup), (update_world_wreck _ _ _ n Hup).
  destruct (robots w !! n) as [r|]; simpl; [|done]. by case_decide.
Qed.

Lemma update_world_accounts_for_every_robot_witness :
  match robots duel !! "b" with
  | Some r =>
      if decide (hp r - incoming (robots duel) "b" ≤ 0)
      then robots duel_after !! "b" = None ∧
           wrecks duel_after !! "b" = Some (settled (robots duel) "b" r)
      else robots duel_after !! "b" = Some (after_turn (robots duel) ∅ "b" r) ∧
           wrecks duel_after !! "b" = wrecks duel !! "b"
  | None =>
      robots duel_after !! "b" = None ∧
      wrecks duel_after !! "b" = wrecks duel !! "b"
  end.
Proof.
  apply (update_world_accounts_for_every_robot duel ∅ duel_after "b").
  by vm_compute.
Defined.

Lemma update_world_dom w pending w' :
  update_world w pending = Ok w' →
  dom (robots w') ∪ dom (wrecks w') = dom (robots w) ∪ dom (wrecks w).
Proof.
  intros Hup. apply set_eq. intros n. rewrite !elem_of_union, !elem_of_dom.
  rewrite (update_world_robot _ _ _ n Hup), (update_world_wreck _ _ _ n Hup).
  destruct (robots w !! n) as [r|]; simpl.
  - case_decide; split; intros _; eauto.
  - split; (intros [[? ?]|?]; [done|by right]).
Qed.

(** X3. A turn loses nobody and invents nobody: the identities that own a
    robot or a wreck are the same after [update_world] as before.  No
    identity becomes a robot's owner, none stops being a wreck's, and the
    arena is the same. *)
Theorem update_world_conserves_identities w pending w' :
  update_world w pending = Ok w' →
  dom (robots w') ∪ dom (wrecks w') = dom (robots w) ∪ dom (wrecks w) ∧
  dom (robots w') ⊆ dom (robots w) ∧
  dom (wrecks w) ⊆ dom (wrecks w') ∧
  arena w' = arena w.
Proof.
  intros Hup. split; [by apply (update_world_dom w pending)|].
  split; [by apply (update_world_robots_subseteq w pending)|]. split.
  - intros n. rewrite !elem_of_dom, (update_world_wreck _ _ _ n Hup).
    intros Hwk. destruct (robots w !! n); [|done]. by case_decide.
  - by destruct (update_world_inv _ _ _ Hup) as (rs & _ & ->).
Qed.

Lemma update_world_conserves_identities_witness :
  dom (robots duel_after) ∪ dom (wrecks duel_after)
  = dom (robots duel) ∪ dom (wrecks duel) ∧
  dom (robots duel_after) ⊆ dom (robots duel) ∧
  dom (wrecks duel) ⊆ dom (wrecks duel_after) ∧
  arena duel_after = arena duel.
Proof.
  apply (update_world_conserves_identities duel ∅ duel_after).
  by vm_compute.
Defined.

(** ** What else every reachable state satisfies *)

Lemma hits_nonneg rs attackers victim :
  (∀ a r, rs !! a = Some r → 0 ≤ damage r) →
  0 ≤ hits rs attackers victim.
Proof.
  intros Hpos. unfold hits.
  induction attackers as [|a attackers IH]; [done|].
  rewrite fmap_cons. cbn [foldr].
  assert (0 ≤ blow rs victim a); [|lia].
  unfold blow. destruct (rs !! a) as [r|] eqn:Ha; [|done].
  case_decide; [by eapply Hpos|done].
Qed.

Lemma settled_ok rs n r :
  (∀ a r', rs !! a = Some r' → 0 ≤ damage r') →
  robot_ok r → robot_ok (settled rs n r).
Proof.
  intros Hpos (Hdamage & Hhp & Hstill & Hplace).
  pose proof (hits_nonneg rs (map_to_list rs).*1 n Hpos) as Hhits.
  unfold robot_ok, settled, incoming. simpl.
  split; [done|]. split; [lia|]. by split.
Qed.

Lemma world_ok_update w pending w' :
  world_ok w → orders_ok w pending →
  update_world w pending = Ok w' → world_ok w'.
Proof.
  intros (Harena & Hrobots & Hwrecks) Horders Hup.
  assert (Hpos : ∀ a r, robots w !! a = Some r → 0 ≤ damage r).
  { intros a r Hr. destruct (Hrobots a r Hr) as [(-> & _) _]. lia. }
  split; [|split].
  - destruct (update_world_inv _ _ _ Hup) as (rs & _ & ->). done.
  - intros n r'. rewrite (update_world_robot _ _ _ n Hup).
    destruct (robots w !! n) as [r|] eqn:Hr; simpl; [|done].
    case_decide as Hhp; [done|]. intros [= <-].
    destruct (Hrobots n r Hr) as (Hok & _ & _).
    pose proof (settled_ok (robots w) n r Hpos Hok)
      as (Hdamage & Hmax & _ & Hplace).
    assert (Hmove : pending !! n ≫= act_move_to = None).
    { destruct (pending !! n) as [a|] eqn:Ha; [|done].
      by destruct (Horders n a Ha) as (_ & ? & _). }
    split; [|split].
    + unfold robot_ok, after_turn. simpl. rewrite Hmove. simpl.
      split; [done|]. split; [exact Hmax|]. by split.
    + simpl. lia.
    + simpl. intros t Ht. rewrite (update_world_dom _ _ _ Hup).
      destruct (pending !! n) as [a|] eqn:Ha; [|done]. simpl in Ht.
      destruct (Horders n a Ha) as (_ & _ & Haim).
      apply elem_of_union_l, elem_of_dom. by apply Haim.
  - intros n r'. rewrite (update_world_wreck _ _ _ n Hup).
    destruct (robots w !! n) as [r|] eqn:Hr.
    + case_decide as Hhp; [|by apply Hwrecks]. intros [= <-].
      destruct (Hrobots n r Hr) as (Hok & _ & _).
      split; [by apply settled_ok|]. split; [exact Hhp|done].
    + by apply Hwrecks.
Qed.

Lemma generate_world_ok players e w e' :
  generate_world players e = Ok (w, e') → world_ok w.
Proof.
  intros Hgen.
  destruct (generate_world_places_fresh _ _ _ _ Hgen) as [Hwrecks Hfresh].
  split; [|split].
  - by destruct (generate_world_inv _ _ _ _ Hgen) as (ps & _ & _ & ->).
  - intros n r Hr. destruct (Hfresh n r Hr) as (x & y & Hin & ->).
    split; [|split; [done|done]].
    split; [done|]. split; [done|]. split; [done|]. by exists x, y.
  - intros n r. by rewrite Hwrecks, lookup_empty.
Qed.

Lemma orders_ok_empty w : orders_ok w ∅.
Proof. intros n a. by rewrite lookup_empty. Qed.

Lemma begin_registration_steady s e s' e' :
  steady s → begin_registration s e = Ok (s', e') → steady s'.
Proof.
  intros (Hturn & Hactions & _ & Hworld) [= <- _].
  split; [done|]. split; [done|]. split; [done|]. simpl.
  intros w Hw. destruct (Hworld w Hw) as (Hok & _ & _ & _ & Horders).
  split; [done|]. split; [done|]. split; [done|]. split; [done|done].
Qed.

(** The server after a turn of the game that [update_world] has carried out,
    in the phase [ph] the turn leads to. *)
Lemma steady_after_turn s w pending w' ph since' turn' :
  steady s → phase s = game →
  world s = Some w → actions s = Some pending →
  update_world w pending = Ok w' →
  is_Some turn' →
  (ph = game → (2 ≤ size (robots w'))%nat) →
  (ph = results → (size (robots w') ≤ 1)%nat) →
  steady {| players := players s; phase := ph; since := since';
            turn := turn'; actions := Some ∅; world := Some w' |}.
Proof.
  intros (_ & _ & _ & Hworld) Hgame Hw Hp Hup Hturn Hmany Hfew.
  destruct (Hworld w Hw) as (Hok & _ & _ & Hsub & Horders).
  split; [|split; [|split]]; simpl.
  - split; by eauto.
  - split; by eauto.
  - by eauto.
  - intros ? [= <-]. split; [|split; [done|split; [done|split]]].
    + eapply world_ok_update; [done| |done]. by apply Horders.
    + intros _. rewrite (update_world_dom _ _ _ Hup). apply Hsub.
      by rewrite Hgame.
    + intros ? [= <-]. apply orders_ok_empty.
Qed.

Lemma tick_game_steady s e s' e' :
  steady s → phase s = game → tick_game s e = Ok (s', e') → steady s'.
Proof.
  intros Hs Hgame H. unfold tick_game in H.
  apply bind_ok in H as (now & e1 & Hnow & H).
  destruct (now <? since s + 1)%float; [by unwind|].
  apply bind_ok in H as (w & ? & Hw & H).
  apply bind_ok in H as (pending & ? & Hp & H).
  apply bind_ok in H as (w' & ? & Hup & H). unwind.
  assert (Hturn : is_Some (turn s)).
  { destruct Hs as (Hturn & _). apply Hturn. by eauto. }
  destruct (decide (size (robots w') ≤ 1)%nat) as [Hfew|Hmany].
  - unfold begin_results in H. unwind. simpl.
    eapply steady_after_turn; try done.
  - unwind. eapply steady_after_turn; try done; try (by eauto).
    + intros _. lia.
    + by rewrite Hgame.
Qed.

Lemma begin_game_steady s e s' e' :
  (2 ≤ size (active_players s))%nat →
  begin_game s e = Ok (s', e') → steady s'.
Proof.
  intros Htwo H. unfold begin_game in H.
  apply bind_ok in H as (w & e1 & Hgen & H).
  simpl in H. eapply tick_game_steady; [| |exact H]; [|done].
  change (active_players (Build_Server (players s) _ _ _ _ _))
    with (active_players s) in Hgen.
  pose proof (generate_world_dom _ _ _ _ Hgen) as Hdom.
  destruct (generate_world_places_fresh _ _ _ _ Hgen) as [Hwrecks _].
  split; [|split; [|split]]; simpl.
  - split; by eauto.
  - split; by eauto.
  - by eauto.
  - intros ? [= <-]. split; [by eapply generate_world_ok|].
    split; [|split; [done|split]].
    + intros _. rewrite <- (size_dom (D := gset string)), Hdom.
      by rewrite (size_dom (D := gset string)).
    + intros _. rewrite Hdom, Hwrecks, dom_empty_L, (right_id_L ∅ (∪)).
      apply subseteq_dom. apply map_filter_subseteq.
    + intros ? [= <-]. apply orders_ok_empty.
Qed.

Lemma tick_steady s e s' e' : steady s → tick s e = Ok (s', e') → steady s'.
Proof.
  intros Hs H. unfold tick in H. destruct (phase s) eqn:Hphase.
  - unfold tick_registration in H.
    apply bind_ok in H as (now & e1 & Hnow & H).
    destruct (since s + 10 <=? now)%float; [|by unwind].
    destruct (decide (2 ≤ size (active_players s))%nat); [|by unwind].
    by eapply begin_game_steady.
  - by eapply tick_game_steady.
  - unfold tick_results in H.
    apply bind_ok in H as (now & e1 & Hnow & H).
    destruct (now <? since s + 3)%float; [by unwind|].
    apply bind_ok in H as ([] & e2 & _ & H).
    by eapply begin_registration_steady.
Qed.

Lemma on_hello_steady sender message s e s' e' :
  steady s → on_hello sender message s e = Ok (s', e') → steady s'.
Proof.
  intros (Hturn & Hactions & Hphase & Hworld) H. unfold on_hello in H.
  apply bind_ok in H as ([] & e1 & _ & H). unwind.
  split; [done|]. split; [done|]. split; [done|]. simpl.
  intros w Hw. destruct (Hworld w Hw) as (Hok & Hmany & Hfew & Hsub & Horders).
  split; [done|]. split; [done|]. split; [done|]. split; [|done].
  intros Hreg. rewrite dom_insert_L. specialize (Hsub Hreg).
  intros n Hn. apply elem_of_union_r. by apply Hsub.
Qed.

Lemma on_action_steady sender message s s' :
  steady s → on_action sender message s = Ok s' → steady s'.
Proof.
  intros Hs H. unfold on_action in H.
  destruct (world s) as [w|] eqn:Hw; [|done]. simpl in H.
  unfold mbind, result_bind in H.
  destruct (decide (robots w !! sender = None)) as [?|Hrobot];
    [by injection H as <-|].
  destruct (turn s) as [t|] eqn:Ht; [|done]. simpl in H.
  destruct (py_ne_int _ t); [by injection H as <-|].
  destruct (actions s) as [pending|] eqn:Hp; [|done]. simpl in H.
  destruct Hs as (Hturn & Hactions & Hphase & Hworld).
  injection H as <-. split; [|split; [|split]]; simpl.
  - split; by eauto.
  - split; by eauto.
  - by eauto.
  - intros ? [= <-].
    destruct (Hworld w Hw) as (Hok & Hmany & Hfew & Hsub & Horders).
    split; [done|]. split; [done|]. split; [done|]. split; [done|].
    intros ? [= <-] m a. destruct (decide (sender = m)) as [<-|Hne].
    + rewrite lookup_insert_eq. intros [= <-]. simpl.
      split; [by destruct (robots w !! sender); eauto|]. split; [done|].
      destruct (msg_get "target" message) as [| | | |name| |]; try done.
      destruct (decide (name ≠ sender)); [|done].
      destruct (decide (is_Some (robots w !! name))); [|done].
      by intros ? [= <-].
    + rewrite lookup_insert_ne by done. by apply (Horders pending Hp).
Qed.

Lemma dispatch_steady sender message s e s' e' :
  steady s → dispatch sender message s e = Ok (s', e') → steady s'.
Proof.
  intros Hs H. unfold dispatch in H.
  destruct message as [fields|]; [|by unwind].
  destruct (fields !! "type") as [[| | | |kind| |]|]; try by unwind.
  destruct (decide (kind = "hello")); [by eapply on_hello_steady|].
  destruct (decide (kind = "action")); [|by unwind].
  apply lift_ok in H as [H _]. by eapply on_action_steady.
Qed.

Lemma iteration_steady incoming s e s' e' :
  steady s → iteration incoming s e = Ok (s', e') → steady s'.
Proof.
  intros Hs H. unfold iteration in H.
  apply bind_ok in H as (s1 & e1 & Htick & H).
  pose proof (tick_steady _ _ _ _ Hs Htick) as Hs1.
  destruct incoming as [[sender message]|]; [|by unwind].
  by eapply dispatch_steady.
Qed.

Lemma reachable_steady s : reachable s → steady s.
Proof.
  induction 1 as [e s e' Hstart|s incoming e s' e' _ IH Hstep].
  - injection Hstart as <- _.
    split; [by split; intros [? ?]|]. split; [by split; intros [? ?]|].
    split; [done|]. by simpl.
  - by eapply iteration_steady.
Qed.

(** ** Robots, phases and pending actions in the reachable states *)

(** X4. Movement is not implemented.  In every state the server reaches,
    each robot and each wreck of its world has [move_from = move_to], a point
    of [starts], and a damage of 10; a robot has between 1 and 100 hit
    points, a wreck has none left and no target; the arena is 1600 by 900. *)
Theorem robots_stay_where_they_started s w :
  reachable s → world s = Some w →
  arena w = (1600, 900) ∧
  (∀ n r, robots w !! n = Some r →
     damage r = 10 ∧ 0 < hp r ≤ 100 ∧ move_from r = move_to r ∧
     ∃ x y, (x, y) ∈ starts ∧ move_to r = Point.make x y) ∧
  (∀ n r, wrecks w !! n = Some r →
     damage r = 10 ∧ hp r ≤ 0 ∧ target r = None ∧ move_from r = move_to r ∧
     ∃ x y, (x, y) ∈ starts ∧ move_to r = Point.make x y).
Proof.
  intros (_ & _ & _ & Hworld)%reachable_steady Hw.
  destruct (Hworld w Hw) as ((Harena & Hrobots & Hwrecks) & _).
  split; [done|]. split.
  - intros n r Hr.
    destruct (Hrobots n r Hr) as ((Hd & Hmax & Hstill & Hplace) & Hpos & _).
    split; [done|]. split; [lia|]. by split.
  - intros n r Hr.
    destruct (Hwrecks n r Hr) as ((Hd & Hmax & Hstill & Hplace) & Hdead & Ht).
    split; [done|]. split; [done|]. split; [done|]. by split.
Qed.

Lemma robots_stay_where_they_started_witness :
  arena duel = (1600, 900) ∧
  (∀ n r, robots duel !! n = Some r →
     damage r = 10 ∧ 0 < hp r ≤ 100 ∧ move_from r = move_to r ∧
     ∃ x y, (x, y) ∈ starts ∧ move_to r = Point.make x y) ∧
  (∀ n r, wrecks duel !! n = Some r →
     damage r = 10 ∧ hp r ≤ 0 ∧ target r = None ∧ move_from r = move_to r ∧
     ∃ x y, (x, y) ∈ starts ∧ move_to r = Point.make x y).
Proof.
  apply (robots_stay_where_they_started doomed duel).
  - apply (run_reachable onslaught ticking). vm_compute. reflexivity.
  - reflexivity.
Defined.

(** X5. While the phase is [game] the server has a world with at least two
    robots, a turn and pending actions; while it is [results] its world has
    at most one robot.  In both phases every owner of a robot or a wreck is
    in the roster. *)
Theorem game_runs_on_two_robots s :
  reachable s →
  (phase s = game →
     ∃ w t pending, world s = Some w ∧ turn s = Some t ∧
       actions s = Some pending ∧ (2 ≤ size (robots w))%nat) ∧
  (phase s = results →
     ∃ w, world s = Some w ∧ (size (robots w) ≤ 1)%nat) ∧
  (phase s ≠ registration → ∀ w, world s = Some w →
     dom (robots w) ∪ dom (wrecks w) ⊆ dom (players s)).
Proof.
  intros (Hturn & Hactions & Hphase & Hworld)%reachable_steady.
  split; [|split].
  - intros Hgame.
    destruct Hphase as [w Hw]; [by rewrite Hgame|].
    destruct (proj2 Hturn) as [t Ht]; [by eauto|].
    destruct (proj2 Hactions) as [pending Hp]; [by eauto|].
    exists w, t, pending. destruct (Hworld w Hw) as (_ & Hmany & _).
    by eauto.
  - intros Hres. destruct Hphase as [w Hw]; [by rewrite Hres|].
    exists w. destruct (Hworld w Hw) as (_ & _ & Hfew & _). by eauto.
  - intros Hreg w Hw. destruct (Hworld w Hw) as (_ & _ & _ & Hsub & _).
    by apply Hsub.
Qed.

Lemma game_runs_on_two_robots_witness :
  (phase doomed = game →
     ∃ w t pending, world doomed = Some w ∧ turn doomed = Some t ∧
       actions doomed = Some pending ∧ (2 ≤ size (robots w))%nat) ∧
  (phase doomed = results →
     ∃ w, world doomed = Some w ∧ (size (robots w) ≤ 1)%nat) ∧
  (phase doomed ≠ registration → ∀ w, world doomed = Some w →
     dom (robots w) ∪ dom (wrecks w) ⊆ dom (players doomed)).
Proof.
  apply (game_runs_on_two_robots doomed).
  apply (run_reachable onslaught ticking). vm_compute. reflexivity.
Defined.

(** X6. In every state the server reaches, each pending action is the
    action of an identity that owns a robot; it holds no [move_to], and its
    target is either none or another identity that owns a robot. *)
Theorem pending_actions_are_valid s w pending n a :
  reachable s → world s = Some w → actions s = Some pending →
  pending !! n = Some a →
  is_Some (robots w !! n) ∧ act_move_to a = None ∧
  ∀ t, act_target a = Some t → t ≠ n ∧ is_Some (robots w !! t).
Proof.
  intros Hs Hw Hp Ha.
  destruct (reachable_steady s Hs) as (_ & _ & _ & Hworld).
  destruct (reachable_sound s Hs) as (_ & _ & Hself).
  destruct (Hworld w Hw) as (_ & _ & _ & _ & Horders).
  destruct (Horders pending Hp n a Ha) as (Hrobot & Hmove & Haim).
  split; [done|]. split; [done|]. intros t Ht. split; [|by apply Haim].
  intros ->. by apply (Hself pending Hp n a Ha).
Qed.

Lemma pending_actions_are_valid_witness :
  is_Some (robots duel !! "a") ∧
  act_move_to {| act_target := Some "b"; act_move_to := None |} = None ∧
  ∀ t, act_target {| act_target := Some "b"; act_move_to := None |} = Some t →
       t ≠ "a" ∧ is_Some (robots duel !! t).
Proof.
  apply (pending_actions_are_valid doomed duel
           {[ "a" := {| act_target := Some "b"; act_move_to := None |} ]}).
  - apply (run_reachable onslaught ticking). vm_compute. reflexivity.
  - reflexivity.
  - reflexivity.
  - reflexivity.
Defined.

(** ** When a tick or a handler raises *)

Lemma begin_results_returns s e w t :
  world s = Some w → turn s = Some t →
  ∃ s' e', begin_results s e = Ok (s', e').
Proof.
  intros Hw Ht. unfold begin_results, mbind, M_bind, time_time, lift.
  cbn [world turn]. rewrite Hw, Ht. cbn [attr]. rewrite send_all_ok.
  by eexists _, _.
Qed.

Lemma tick_results_returns s e : ∃ s' e', tick_results s e = Ok (s', e').
Proof.
  unfold tick_results, mbind, M_bind, time_time.
  destruct (_ <? _)%float; [by eexists _, _|].
  rewrite send_all_ok. by eexists _, _.
Qed.

Lemma tick_registration_returns s e :
  (size (active_players s) ≤ length starts)%nat →
  ∃ s' e', tick_registration s e = Ok (s', e').
Proof.
  intros Hcap. unfold tick_registration, mbind, M_bind, time_time.
  destruct (_ <=? _)%float; [|by eexists _, _].
  destruct (decide (2 ≤ size (active_players s))%nat); [|by eexists _, _].
  destruct (begin_game_starts s
    {| clock := clock e; reads := S (reads e); dice := dice e;
       rolls := rolls e; wire := wire e |}) as (s' & e' & Hbegin & _);
    [done|]. by eexists _, _.
Qed.

(** A tick of the game raises only what [update_world] raises. *)
Lemma tick_game_raises s e w t pending err :
  world s = Some w → turn s = Some t → actions s = Some pending →
  tick_game s e = Raise err → update_world w pending = Raise err.
Proof.
  intros Hw Ht Hp. unfold tick_game, mbind at 1, M_bind at 1, time_time.
  destruct (_ <? _)%float; [done|].
  rewrite Hw, Hp. cbn [attr]. unfold mbind, M_bind, lift.
  destruct (update_world w pending) as [w'|err'] eqn:Hup; [|by intros [= ->]].
  destruct (decide (size (robots w') ≤ 1)%nat).
  - intros Hres.
    destruct (begin_results_returns
      {| players := players s; phase := phase s; since := since s;
         turn := turn s; actions := Some ∅; world := Some w' |}
      {| clock := clock e; reads := S (reads e); dice := dice e;
         rolls := rolls e; wire := wire e |} w' t eq_refl Ht)
      as (s' & e' & Hok). congruence.
  - rewrite Ht. cbn [attr]. unfold time_time. by rewrite send_all_ok.
Qed.

(** X7. In the states the server reaches a tick raises for one reason only:
    in the game, [update_world] meets a pending action whose sender's robot
    this very turn destroys, and raises [KeyError] with that sender.  The
    ticks of the registration and of the results never raise. *)
Theorem tick_raises_only_for_a_destroyed_sender s e err :
  reachable s → tick s e = Raise err →
  phase s = game ∧
  ∃ w pending n r,
    world s = Some w ∧ actions s = Some pending ∧ err = KeyError n ∧
    n ∈ dom pending ∧ robots w !! n = Some r ∧
    hp r - incoming (robots w) n ≤ 0.
Proof.
  intros Hs Htick.
  destruct (reachable_sound s Hs) as (Hcap & _).
  destruct (reachable_steady s Hs) as (Hturn & Hactions & Hphase & Hworld).
  unfold tick in Htick. destruct (phase s) eqn:Hph.
  - destruct (tick_registration_returns s e Hcap) as (? & ? & ?). congruence.
  - split; [done|].
    destruct Hphase as [w Hw]; [done|].
    destruct (proj2 Hturn) as [t Ht]; [by eauto|].
    destruct (proj2 Hactions) as [pending Hp]; [by eauto|].
    pose proof (tick_game_raises s e w t pending err Hw Ht Hp Htick) as Hup.
    pose proof (update_world_outcome w pending) as Hout.
    rewrite Hup in Hout. destruct Hout as (n & -> & Hn & Hnot).
    destruct (Hworld w Hw) as (_ & _ & _ & _ & Horders).
    apply elem_of_dom in Hn as Hn'. destruct Hn' as [a Ha].
    destruct (Horders pending Hp n a Ha) as ([r Hr] & _).
    exists w, pending, n, r. repeat (split; [done|]).
    destruct (decide (hp r - incoming (robots w) n ≤ 0)) as [|Halive];
      [done|].
    destruct Hnot. exists r. split; [done|lia].
  - destruct (tick_results_returns s e) as (? & ? & ?). congruence.
Qed.

Lemma tick_raises_only_for_a_destroyed_sender_witness :
  phase doomed = game ∧
  ∃ w pending n r,
    world doomed = Some w ∧ actions doomed = Some pending ∧
    KeyError "a" = KeyError n ∧
    n ∈ dom pending ∧ robots w !! n = Some r ∧
    hp r - incoming (robots w) n ≤ 0.
Proof.
  apply (tick_raises_only_for_a_destroyed_sender doomed (still 2000%float)
           (KeyError "a")).
  - apply (run_reachable onslaught ticking). vm_compute. reflexivity.
  - by vm_compute.
Defined.

Lemma on_hello_returns sender message s e :
  ∃ s' e', on_hello sender message s e = Ok (s', e').
Proof.
  unfold on_hello, mbind, M_bind. rewrite send_all_ok. by eexists _, _.
Qed.

(** X8. In the states the server reaches, handling a message raises for one
    reason only: the message is an action and no game has begun yet, so the
    server has no world, and [_on_action] raises [AttributeError].  A hello
    never raises, and once a game has begun no message does. *)
Theorem dispatch_raises_only_before_the_first_game sender message s e err :
  reachable s → dispatch sender message s e = Raise err →
  err = AttributeError "world" ∧ world s = None ∧
  ∃ fields, message = Mapping fields ∧
            fields !! "type" = Some (PStr "action").
Proof.
  intros Hs. destruct (reachable_steady s Hs) as (Hturn & Hactions & _).
  unfold dispatch. destruct message as [fields|]; [|done].
  destruct (fields !! "type") as [[| | | |kind| |]|] eqn:Htype; try done.
  destruct (decide (kind = "hello")) as [|_].
  { destruct (on_hello_returns sender fields s e) as (? & ? & ->). done. }
  destruct (decide (kind = "action")) as [->|]; [|done].
  unfold lift, on_action.
  destruct (world s) as [w|] eqn:Hw; simpl.
  - unfold mbind, result_bind.
    destruct (decide (robots w !! sender = None)); [done|].
    destruct (proj2 Hturn) as [t Ht]; [by eauto|].
    destruct (proj2 Hactions) as [pending Hp]; [by eauto|].
    rewrite Ht. simpl. destruct (py_ne_int _ t); [done|].
    rewrite Hp. done.
  - intros [= <-]. split; [done|]. split; [done|]. by exists fields.
Qed.

Lemma dispatch_raises_only_before_the_first_game_witness :
  AttributeError "world" = AttributeError "world" ∧ world fresh = None ∧
  ∃ fields, order 0 "b" = Mapping fields ∧
            fields !! "type" = Some (PStr "action").
Proof.
  apply (dispatch_raises_only_before_the_first_game "a" (order 0 "b") fresh
           (still 1000%float) (AttributeError "world")).
  - by apply (reach_start (still 1000%float) fresh
                {| clock := λ _, 1000%float; reads := 1; dice := λ _, 0%nat;
                   rolls := 0; wire := [] |}).
  - by vm_compute.
Defined.

(** ** Registration: what a hello does *)

(** X9. [_on_hello] always stores a record for the sender whose [will] is
    ["play"] or ["spectate"].  Outside the registration it is ["spectate"]
    whatever was asked; a hello that asks to spectate is always granted; in a
    registration with a starting position left, any other hello (no ['want'],
    or a value that is neither of the two strings) makes an active player. *)
Theorem hello_settles_the_intent sender message s e :
  ∃ s' e' r,
    on_hello sender message s e = Ok (s', e') ∧
    players s' !! sender = Some r ∧
    (will r = "play" ∨ will r = "spectate") ∧
    (phase s ≠ registration → will r = "spectate") ∧
    (msg_get "want" message = PStr "spectate" → will r = "spectate") ∧
    (phase s = registration →
     (size (active_players s) < length starts)%nat →
     msg_get "want" message ≠ PStr "spectate" → will r = "play").
Proof.
  unfold on_hello.
  set (want1 := match msg_get "want" message with
                | PStr w => if decide (w = "play" ∨ w = "spectate") then w
                            else "play"
                | _ => "play" end).
  set (want2 := if decide (want1 = "play" ∧ phase s ≠ registration)
                then "spectate" else want1).
  set (want3 := if decide (phase s = registration) then _ else want2).
  assert (H1 : want1 = "play" ∨ want1 = "spectate").
  { unfold want1. destruct (msg_get "want" message); auto.
    case_decide; auto. }
  assert (H2 : want2 = "play" ∨ want2 = "spectate").
  { unfold want2. case_decide; auto. }
  assert (H3 : want3 = "play" ∨ want3 = "spectate").
  { unfold want3. repeat case_decide; auto. }
  eexists _, _, {| nick := _; will := want3 |}.
  split; [unfold mbind, M_bind; rewrite send_all_ok; reflexivity|].
  split; [apply lookup_insert_eq|]. cbn [will].
  split; [done|]. split; [|split].
  - intros Hlate. unfold want3. rewrite decide_False by done.
    unfold want2. case_decide as Hc; [done|].
    destruct H1 as [Hp|Hs]; [|done]. destruct Hc. by split.
  - intros Hwant. unfold want3, want2, want1. rewrite Hwant.
    rewrite (decide_True (P := "spectate" = "play" ∨ "spectate" = "spectate"))
      by (by right).
    rewrite (decide_False (P := "spectate" = "play" ∧ _)) by (by intros [? _]).
    by repeat case_decide.
  - intros Hreg Hroom Hwant. unfold want3. rewrite decide_True by done.
    assert (Hw2 : want2 = "play").
    { unfold want2. rewrite decide_False by (intros [_ ?]; done).
      unfold want1. destruct (msg_get "want" message) as [| | | |w| |];
        try done.
      case_decide as Hw; [|done]. destruct Hw as [->| ->]; [done|].
      by destruct Hwant. }
    case_decide; [|done]. rewrite decide_False by lia. done.
Qed.

Lemma roster_recipients (roster : gmap string PlayerRecord)
    (message : Outgoing) :
  let batch := (λ r : string, (r, message)) <$> (map_to_list roster).*1 in
  NoDup batch.*1 ∧
  (∀ n, n ∈ batch.*1 ↔ n ∈ dom roster) ∧
  (∀ n m, (n, m) ∈ batch → m = message).
Proof.
  cbv zeta.
  assert (Hfst : ((λ r : string, (r, message)) <$> (map_to_list roster).*1).*1
                 = (map_to_list roster).*1).
  { rewrite <- list_fmap_compose. apply list_fmap_id. }
  rewrite Hfst. split; [apply NoDup_fst_map_to_list|]. split.
  - intros n. rewrite elem_of_dom, list_elem_of_fmap. split.
    + intros ([n' p] & -> & Hin). apply elem_of_map_to_list in Hin. by eexists.
    + intros [p Hp]. exists (n, p). split; [done|].
      by apply elem_of_map_to_list.
  - by intros n m (r & [= -> ->] & _)%list_elem_of_fmap.
Qed.

(** X10. A hello replaces the record of its sender and touches nothing else:
    the other records, the phase, its timestamp, the turn, the pending
    actions and the world are as before.  The roster it leaves is then sent
    once to every identity in it, the sender included, and to no one else. *)
Theorem hello_sends_the_roster_to_everyone sender message s e s' e' :
  on_hello sender message s e = Ok (s', e') →
  (∀ n, n ≠ sender → players s' !! n = players s !! n) ∧
  is_Some (players s' !! sender) ∧
  phase s' = phase s ∧ since s' = since s ∧ turn s' = turn s ∧
  actions s' = actions s ∧ world s' = world s ∧
  ∃ batch,
    wire e' = wire e ++ batch ∧
    NoDup batch.*1 ∧
    (∀ n, n ∈ batch.*1 ↔ n = sender ∨ n ∈ dom (players s)) ∧
    (∀ n m, (n, m) ∈ batch → m = Roster (players s')).
Proof.
  intros H. unfold on_hello in H.
  apply bind_ok in H as ([] & e1 & Hsend & H). apply ret_ok in H as [-> ->].
  rewrite send_all_ok in Hsend. injection Hsend as <-. cbn [players].
  split; [by intros n Hn; rewrite lookup_insert_ne|].
  split; [by rewrite lookup_insert_eq; eexists|].
  do 5 (split; [done|]).
  eexists. split; [reflexivity|].
  match goal with
  | |- context [Roster ?m] =>
      destruct (roster_recipients m (Roster m)) as (Hnd & Hdom & Hmsg)
  end.
  split; [exact Hnd|]. split; [|exact Hmsg].
  intros n. rewrite Hdom, dom_insert_L, elem_of_union, elem_of_singleton.
  reflexivity.
Qed.

Lemma hello_sends_the_roster_to_everyone_witness :
  (∀ n, n ≠ "a" → players first_in !! n = players fresh !! n) ∧
  is_Some (players first_in !! "a") ∧
  phase first_in = phase fresh ∧ since first_in = since fresh ∧
  turn first_in = turn fresh ∧
  actions first_in = actions fresh ∧ world first_in = world fresh ∧
  ∃ batch,
    wire first_in_env = wire (still 1000%float) ++ batch ∧
    NoDup batch.*1 ∧
    (∀ n, n ∈ batch.*1 ↔ n = "a" ∨ n ∈ dom (players fresh)) ∧
    (∀ n m, (n, m) ∈ batch → m = Roster (players first_in)).
Proof.
  apply (hello_sends_the_roster_to_everyone "a" (hello_fields "play" "A")
           fresh (still 1000%float) first_in first_in_env).
  by vm_compute.
Defined.

(** ** Action intake: what is stored *)

(** X11. An action for the current turn from an identity that owns a robot
    is stored as that identity's pending action, in place of an earlier one,
    and nothing else changes.  The stored action has no [move_to]; its target
    is the message's ['target'] when that is a string naming another
    identity that owns a robot, and none in every other case. *)
Theorem action_keeps_a_checked_target sender message s w t pending :
  world s = Some w → is_Some (robots w !! sender) →
  turn s = Some t → actions s = Some pending →
  py_ne_int (msg_get "turn" message) t = false →
  ∃ a,
    on_action sender message s
    = Ok {| players := players s; phase := phase s; since := since s;
            turn := turn s; actions := Some (<[sender := a]> pending);
            world := world s |} ∧
    act_move_to a = None ∧
    ∀ name, act_target a = Some name ↔
            msg_get "target" message = PStr name ∧ name ≠ sender ∧
            is_Some (robots w !! name).
Proof.
  intros Hw Hrobot Ht Hp Hturn. unfold on_action.
  rewrite Hw. simpl. unfold mbind, result_bind.
  rewrite decide_False by (by intros Hnone; rewrite Hnone in Hrobot;
                           destruct Hrobot).
  rewrite Ht. simpl. rewrite Hturn, Hp. simpl.
  eexists. split; [reflexivity|]. split; [done|]. simpl.
  intros name.
  destruct (msg_get "target" message) as [| | | |victim| |];
    try (split; [done|by intros [? _]]).
  destruct (decide (victim ≠ sender)) as [Hne|Heq].
  - destruct (decide (is_Some (robots w !! victim))) as [Hin|Hout].
    + split; [by intros [= <-]|by intros ([= <-] & _)].
    + split; [done|]. by intros ([= <-] & _ & ?).
  - split; [done|]. intros ([= <-] & ? & _). by destruct Heq.
Qed.

Lemma action_keeps_a_checked_target_witness :
  ∃ a,
    on_action "a" fire_at_b midgame
    = Ok {| players := players midgame; phase := phase midgame;
            since := since midgame; turn := turn midgame;
            actions := Some (<[ "a" := a ]> ∅); world := world midgame |} ∧
    act_move_to a = None ∧
    ∀ name, act_target a = Some name ↔
            msg_get "target" fire_at_b = PStr name ∧ name ≠ "a" ∧
            is_Some (robots duel !! name).
Proof.
  apply (action_keeps_a_checked_target "a" fire_at_b midgame duel 3 ∅).
  - reflexivity.
  - by eexists.
  - reflexivity.
  - reflexivity.
  - reflexivity.
Defined.

(** X12. The last action wins.  When an identity that owns a robot sends an
    action for the current turn after an earlier action of its own, the
    server ends up as if the earlier one had never been sent. *)
Theorem action_last_one_wins sender earlier later s s1 w t :
  world s = Some w → is_Some (robots w !! sender) → turn s = Some t →
  py_ne_int (msg_get "turn" later) t = false →
  on_action sender earlier s = Ok s1 →
  on_action sender later s1 = on_action sender later s.
Proof.
  intros Hw Hrobot Ht Hturn Hfirst.
  assert (Hsome : robots w !! sender ≠ None).
  { intros Hnone. rewrite Hnone in Hrobot. by destruct Hrobot. }
  unfold on_action in Hfirst. rewrite Hw in Hfirst. simpl in Hfirst.
  unfold mbind, result_bind in Hfirst.
  rewrite decide_False in Hfirst by done. rewrite Ht in Hfirst.
  simpl in Hfirst.
  destruct (py_ne_int (msg_get "turn" earlier) t); [by injection Hfirst as <-|].
  destruct (actions s) as [pending|] eqn:Hp; [|done]. simpl in Hfirst.
  injection Hfirst as <-.
  unfold on_action. cbn [world turn actions players phase since].
  rewrite Hw, Ht, Hp. simpl. unfold mbind, result_bind.
  rewrite !(decide_False (P := robots w !! sender = None)) by done.
  rewrite Hturn. simpl. by rewrite insert_insert_eq.
Qed.

Lemma action_last_one_wins_witness :
  on_action "a" fire_at_b midgame_armed = on_action "a" fire_at_b midgame.
Proof.
  apply (action_last_one_wins "a" fire_at_b fire_at_b midgame midgame_armed
           duel 3).
  - reflexivity.
  - by eexists.
  - reflexivity.
  - reflexivity.
  - reflexivity.
Defined.

(** ** The phases: how a game opens, runs and closes *)

(** The first turn changes nothing in a world that [generate_world] has just
    made. *)
Lemma fresh_turn_identity players e w e' :
  generate_world players e = Ok (w, e') → update_world w ∅ = Ok w.
Proof.
  intros Hgen.
  destruct (generate_world_places_fresh _ _ _ _ Hgen) as [Hwrecks Hfresh].
  assert (Hquiet : ∀ n, incoming (robots w) n = 0).
  { intros n. apply hits_no_target. intros a r Ha.
    by destruct (Hfresh a r Ha) as (? & ? & _ & ->). }
  unfold update_world. rewrite map_to_list_empty. simpl.
  destruct w as [ar rs wk]. simpl in *. do 2 f_equal.
  - apply map_eq. intros n. rewrite survivor_lookup, Hquiet.
    destruct (rs !! n) as [r|] eqn:Hr; simpl; [|done].
    destruct (Hfresh n r Hr) as (x & y & _ & ->). simpl.
    unfold settled. by rewrite Hquiet.
  - apply map_eq. intros n. rewrite prune_wrecks_lookup, damage_phase_lookup.
    destruct (rs !! n) as [r|] eqn:Hr; simpl; [|done].
    destruct (Hfresh n r Hr) as (x & y & _ & ->). simpl.
    by rewrite Hquiet.
Qed.

(** X13. When the tick of a registration starts a game, the roster is kept,
    there are no pending actions, and the world is the one [generate_world]
    made for the active players: a new robot each, no wrecks.  The first turn
    of the game is played at once.  If the clock then reads at least 1.0 (as
    the time since the epoch does) the game is in turn 1, stamped with the
    next reading of the clock, and a sitrep with that world and turn 1 has
    gone to every identity of the roster; otherwise the game waits in turn 0
    and nothing is sent. *)
Theorem game_opens_with_turn_one s e s' e' :
  phase s = registration →
  tick_registration s e = Ok (s', e') → phase s' = game →
  players s' = players s ∧ actions s' = Some ∅ ∧
  ∃ w,
    world s' = Some w ∧
    dom (robots w) = dom (active_players s) ∧ wrecks w = ∅ ∧
    (∀ n r, robots w !! n = Some r →
       ∃ x y, (x, y) ∈ starts ∧
         r = {| move_from := Point.make x y; move_to := Point.make x y;
                damage := 10; target := None; hp := 100 |}) ∧
    ((clock e (S (reads e)) <? 1)%float = false →
       turn s' = Some 1 ∧ since s' = clock e (S (S (reads e))) ∧
       wire e' = wire e ++ ((λ n, (n, Sitrep w 1)) <$>
                              (map_to_list (players s)).*1)) ∧
    ((clock e (S (reads e)) <? 1)%float = true →
       turn s' = Some 0 ∧ wire e' = wire e).
Proof.
  intros Hreg H Hgame. unfold tick_registration in H.
  apply bind_ok in H as (now & e1 & Hnow & H). injection Hnow as <- <-.
  assert (Hbegin : (2 ≤ size (active_players s))%nat ∧ begin_game s
    {| clock := clock e; reads := S (reads e); dice := dice e;
       rolls := rolls e; wire := wire e |} = Ok (s', e')).
  { destruct (_ <=? _)%float.
    - destruct (decide (2 ≤ size (active_players s))%nat); [done|].
      apply ret_ok in H as [-> _]. congruence.
    - apply ret_ok in H as [-> _]. congruence. }
  clear H. destruct Hbegin as [Htwo Hbegin]. unfold begin_game in Hbegin.
  apply bind_ok in Hbegin as (w & e1 & Hgen & H).
  change (active_players (Build_Server (players s) _ _ _ _ _))
    with (active_players s) in Hgen.
  pose proof (generate_world_dom _ _ _ _ Hgen) as Hdom.
  destruct (generate_world_places_fresh _ _ _ _ Hgen) as [Hwrecks Hfresh].
  pose proof (fresh_turn_identity _ _ _ _ Hgen) as Hturn.
  assert (Henv : clock e1 = clock e ∧ reads e1 = S (reads e) ∧
                 wire e1 = wire e).
  { unfold generate_world in Hgen.
    apply bind_ok in Hgen as (ps & e2 & Hsample & Hgen).
    apply bind_ok in Hgen as (rs & e3 & Hdeploy & Hgen).
    apply lift_ok in Hdeploy as [_ ->]. apply ret_ok in Hgen as [_ ->].
    unfold random_sample in Hsample. case_decide; [done|].
    clear -Hsample. revert Hsample.
    generalize (size (active_players s)). intros k.
    generalize starts. generalize ps.
    set (e0 := Build_Env _ _ _ _ _).
    assert (Hdraw : ∀ k (pool l : list (Z * Z)) ea eb,
      draw pool k ea = Ok (l, eb) →
      clock eb = clock ea ∧ reads eb = reads ea ∧ wire eb = wire ea).
    { clear. induction k as [|k IH]; intros pool l ea eb; simpl.
      - by intros [= _ <-].
      - intros H. apply bind_ok in H as (j & ec & Hj & H).
        injection Hj as _ <-.
        destruct (pool !! _); [|by apply ret_ok in H as [_ ->]].
        apply bind_ok in H as (rest & ed & Hrest & H).
        apply ret_ok in H as [_ ->]. by apply IH in Hrest. }
    intros l pool Hd. by apply Hdraw in Hd. }
  destruct Henv as (Hclock & Hreads & Hwire).
  unfold tick_game in H. cbn [since world actions turn players phase] in H.
  apply bind_ok in H as (now & e2 & Hnow & H). injection Hnow as <- <-.
  rewrite Hclock, Hreads in H. change (0 + 1)%float with 1%float in H.
  destruct (clock e (S (reads e)) <? 1)%float eqn:Hdue.
  - apply ret_ok in H as [-> ->]. cbn [players actions world turn since].
    split; [done|]. split; [done|]. exists w.
    split; [done|]. split; [done|]. split; [done|]. split; [exact Hfresh|].
    split; [done|]. intros _. by simpl.
  - cbn [attr] in H. unfold mbind at 1 2, M_bind at 1 2, lift at 1 2 in H.
    rewrite Hturn in H. unfold mbind at 1, M_bind at 1, lift at 1 in H.
    rewrite decide_False in H.
    2:{ destruct (first_turn _ _ _ _ Hgen) as (w' & Hup & Hsize).
        rewrite Hturn in Hup. injection Hup as <-. lia. }
    apply bind_ok in H as (t & e3 & Ht & H).
    apply lift_ok in Ht as [[= <-] ->].
    apply bind_ok in H as (now' & e4 & Hnow & H). injection Hnow as <- <-.
    apply bind_ok in H as ([] & e5 & Hsend & H).
    apply ret_ok in H as [-> ->].
    rewrite send_all_ok in Hsend. injection Hsend as <-.
    cbn [players actions world turn since sent wire reads clock].
    split; [done|]. split; [done|]. exists w.
    split; [done|]. split; [done|]. split; [done|]. split; [exact Hfresh|].
    split; [|done].
    intros _. by rewrite Hwire.
Qed.

Lemma game_opens_with_turn_one_witness :
  players kickoff = players lobby ∧ actions kickoff = Some ∅ ∧
  ∃ w,
    world kickoff = Some w ∧
    dom (robots w) = dom (active_players lobby) ∧ wrecks w = ∅ ∧
    (∀ n r, robots w !! n = Some r →
       ∃ x y, (x, y) ∈ starts ∧
         r = {| move_from := Point.make x y; move_to := Point.make x y;
                damage := 10; target := None; hp := 100 |}) ∧
    ((1010 <? 1)%float = false →
       turn kickoff = Some 1 ∧ since kickoff = 1010%float ∧
       wire kickoff_env
       = [] ++ ((λ n, (n, Sitrep w 1)) <$> (map_to_list (players lobby)).*1)) ∧
    ((1010 <? 1)%float = true →
       turn kickoff = Some 0 ∧ wire kickoff_env = []).
Proof.
  apply (game_opens_with_turn_one lobby (still 1010%float) kickoff
           kickoff_env).
  - reflexivity.
  - by vm_compute.
  - reflexivity.
Defined.

(** X14. A tick of the game that comes less than a second after the turn
    began changes nothing.  Otherwise it plays the turn with [update_world]
    and empties the pending actions, and then either at most one robot is
    left: the phase becomes [results], the turn number stays, and the results
    with the new world go to everyone in the roster; or the game goes on: the
    turn number grows by one, the turn is stamped with the next reading of
    the clock, and a sitrep with the new world and turn goes to everyone. *)
Theorem turn_ends_with_sitrep_or_results s e s' e' :
  tick_game s e = Ok (s', e') →
  ((clock e (reads e) <? since s + 1)%float = true →
     s' = s ∧ wire e' = wire e) ∧
  ((clock e (reads e) <? since s + 1)%float = false →
     ∃ w pending w' t,
       world s = Some w ∧ actions s = Some pending ∧ turn s = Some t ∧
       update_world w pending = Ok w' ∧
       players s' = players s ∧ world s' = Some w' ∧ actions s' = Some ∅ ∧
       since s' = clock e (S (reads e)) ∧
       if decide (size (robots w') ≤ 1)%nat
       then phase s' = results ∧ turn s' = Some t ∧
            wire e' = wire e ++ ((λ n, (n, Results w' t)) <$>
                                   (map_to_list (players s)).*1)
       else phase s' = phase s ∧ turn s' = Some (t + 1) ∧
            wire e' = wire e ++ ((λ n, (n, Sitrep w' (t + 1))) <$>
                                   (map_to_list (players s)).*1)).
Proof.
  intros H. unfold tick_game in H.
  apply bind_ok in H as (now & e1 & Hnow & H). injection Hnow as <- <-.
  destruct (_ <? _)%float.
  - apply ret_ok in H as [-> ->]. by split.
  - split; [done|]. intros _.
    apply bind_ok in H as (w & ? & Hw & H). apply lift_ok in Hw as [Hw ->].
    apply bind_ok in H as (pending & ? & Hp & H).
    apply lift_ok in Hp as [Hp ->].
    apply bind_ok in H as (w' & ? & Hup & H). apply lift_ok in Hup as [Hup ->].
    apply attr_ok in Hw, Hp. exists w, pending, w'.
    destruct (decide (size (robots w') ≤ 1)%nat).
    + unfold begin_results in H.
      apply bind_ok in H as (now' & e2 & Hnow & H). injection Hnow as <- <-.
      apply bind_ok in H as (w2 & ? & Hw2 & H).
      apply lift_ok in Hw2 as [Hw2 ->]. apply attr_ok in Hw2. simpl in Hw2.
      injection Hw2 as <-.
      apply bind_ok in H as (t & ? & Ht & H). apply lift_ok in Ht as [Ht ->].
      apply attr_ok in Ht. simpl in Ht.
      apply bind_ok in H as ([] & e3 & Hsend & H).
      apply ret_ok in H as [-> ->].
      rewrite send_all_ok in Hsend. injection Hsend as <-.
      exists t. by simpl.
    + apply bind_ok in H as (t & ? & Ht & H). apply lift_ok in Ht as [Ht ->].
      apply attr_ok in Ht.
      apply bind_ok in H as (now' & e2 & Hnow & H). injection Hnow as <- <-.
      apply bind_ok in H as ([] & e3 & Hsend & H).
      apply ret_ok in H as [-> ->].
      rewrite send_all_ok in Hsend. injection Hsend as <-.
      exists t. by simpl.
Qed.

Lemma turn_ends_with_sitrep_or_results_witness :
  ((2000 <? since midgame + 1)%float = true →
     duel_settled = midgame ∧ wire duel_settled_env = []) ∧
  ((2000 <? since midgame + 1)%float = false →
     ∃ w pending w' t,
       world midgame = Some w ∧ actions midgame = Some pending ∧
       turn midgame = Some t ∧
       update_world w pending = Ok w' ∧
       players duel_settled = players midgame ∧
       world duel_settled = Some w' ∧ actions duel_settled = Some ∅ ∧
       since duel_settled = 2000%float ∧
       if decide (size (robots w') ≤ 1)%nat
       then phase duel_settled = results ∧ turn duel_settled = Some t ∧
            wire duel_settled_env
            = [] ++ ((λ n, (n, Results w' t)) <$>
                       (map_to_list (players midgame)).*1)
       else phase duel_settled = phase midgame ∧
            turn duel_settled = Some (t + 1) ∧
            wire duel_settled_env
            = [] ++ ((λ n, (n, Sitrep w' (t + 1))) <$>
                       (map_to_list (players midgame)).*1)).
Proof.
  apply (turn_ends_with_sitrep_or_results midgame (still 2000%float)
           duel_settled duel_settled_env).
  by vm_compute.
Defined.

(** X15. A tick of the results that comes less than three seconds after they
    were sent changes nothing.  Otherwise the end of the game is announced
    once to every identity of the roster and a registration begins: the
    roster is empty, the phase is stamped with the next reading of the clock,
    and the turn, the pending actions and the world of the finished game are
    left in place.  With nobody registered, further ticks do nothing,
    whatever the clock reads, until somebody says hello. *)
Theorem results_close_into_an_empty_registration s e s' e' :
  tick_results s e = Ok (s', e') →
  ((clock e (reads e) <? since s + 3)%float = true →
     s' = s ∧ wire e' = wire e) ∧
  ((clock e (reads e) <? since s + 3)%float = false →
     players s' = ∅ ∧ phase s' = registration ∧
     since s' = clock e (S (reads e)) ∧
     turn s' = turn s ∧ actions s' = actions s ∧ world s' = world s ∧
     wire e' = wire e ++ ((λ n, (n, EndOfGame)) <$>
                            (map_to_list (players s)).*1) ∧
     ∀ e2, ∃ e3, tick s' e2 = Ok (s', e3) ∧ wire e3 = wire e2).
Proof.
  intros H. unfold tick_results in H.
  apply bind_ok in H as (now & e1 & Hnow & H). injection Hnow as <- <-.
  destruct (_ <? _)%float.
  - apply ret_ok in H as [-> ->]. by split.
  - split; [done|]. intros _.
    apply bind_ok in H as ([] & e2 & Hsend & H).
    rewrite send_all_ok in Hsend. injection Hsend as <-.
    injection H as <- <-. simpl. do 7 (split; [done|]).
    intros e2. unfold tick, tick_registration, mbind, M_bind, time_time.
    simpl. destruct (_ <=? _)%float; [|by eexists].
    rewrite decide_False; [by eexists|].
    unfold active_players. simpl.
    rewrite map_filter_empty, map_size_empty. lia.
Qed.

Lemma results_close_into_an_empty_registration_witness :
  ((2004 <? since duel_settled + 3)%float = true →
     reopened = duel_settled ∧ wire reopened_env = []) ∧
  ((2004 <? since duel_settled + 3)%float = false →
     players reopened = ∅ ∧ phase reopened = registration ∧
     since reopened = 2004%float ∧
     turn reopened = turn duel_settled ∧
     actions reopened = actions duel_settled ∧
     world reopened = world duel_settled ∧
     wire reopened_env
     = [] ++ ((λ n, (n, EndOfGame)) <$>
                (map_to_list (players duel_settled)).*1) ∧
     ∀ e2, ∃ e3, tick reopened e2 = Ok (reopened, e3) ∧ wire e3 = wire e2).
Proof.
  apply (results_close_into_an_empty_registration duel_settled
           (still 2004%float) reopened reopened_env).
  by vm_compute.
Defined.

(** ** The loop of run: what a message can change *)

(** X16. Messages never move the game on.  Whatever [run] receives, handling
    it leaves the phase, its timestamp, the turn and the world as they were.
    Only a hello changes the roster or sends anything, only an action changes
    the pending actions, and a message that is no dictionary, has no string
    under ['type'] or has another type changes nothing at all. *)
Theorem messages_leave_the_game_alone sender message s e s' e' :
  dispatch sender message s e = Ok (s', e') →
  phase s' = phase s ∧ since s' = since s ∧ turn s' = turn s ∧
  world s' = world s ∧
  (kind_of message ≠ Some "hello" → players s' = players s ∧ e' = e) ∧
  (kind_of message ≠ Some "action" → actions s' = actions s).
Proof.
  intros H. unfold dispatch in H. unfold kind_of.
  destruct message as [fields|]; [|by apply ret_ok in H as [-> ->]].
  destruct (fields !! "type") as [[| | | |kind| |]|];
    try by apply ret_ok in H as [-> ->].
  destruct (decide (kind = "hello")) as [->|Hhello].
  - unfold on_hello in H. apply bind_ok in H as ([] & e1 & _ & H).
    apply ret_ok in H as [-> ->]. simpl. by repeat split.
  - destruct (decide (kind = "action")) as [->|Haction].
    + apply lift_ok in H as [H ->]. unfold on_action in H.
      destruct (world s) as [w|] eqn:Hw; [|done]. simpl in H.
      unfold mbind, result_bind in H.
      destruct (decide (robots w !! sender = None));
        [by injection H as <-|].
      destruct (turn s) as [t|] eqn:Ht; [|done]. simpl in H.
      destruct (py_ne_int _ t); [by injection H as <-|].
      destruct (actions s) as [pending|] eqn:Hp; [|done]. simpl in H.
      injection H as <-. simpl. by repeat split.
    + apply ret_ok in H as [-> ->]. by repeat split.
Qed.

Lemma messages_leave_the_game_alone_witness :
  phase midgame_armed = phase midgame ∧ since midgame_armed = since midgame ∧
  turn midgame_armed = turn midgame ∧ world midgame_armed = world midgame ∧
  (kind_of (Mapping fire_at_b) ≠ Some "hello" →
     players midgame_armed = players midgame ∧
     still 1000%float = still 1000%float) ∧
  (kind_of (Mapping fire_at_b) ≠ Some "action" →
     actions midgame_armed = actions midgame).
Proof.
  apply (messages_leave_the_game_alone "a" (Mapping fire_at_b) midgame
           (still 1000%float) midgame_armed (still 1000%float)).
  by vm_compute.
Defined.

(** ** The starting positions *)

(** X17. The two loops that build [starts] give 92 different points: the
    points 25 away from the top or the bottom edge of the arena at every
    x = 75, 125, ..., 1525, and those 25 away from the left or the right edge
    at every y = 75, 125, ..., 825; nothing else, and no corner. *)
Theorem starts_are_the_inset_boundary :
  length starts = 92%nat ∧ NoDup starts ∧
  ∀ x y, (x, y) ∈ starts ↔
    ((y = 25 ∨ y = 875) ∧ 75 ≤ x ≤ 1525 ∧ x mod 50 = 25) ∨
    ((x = 25 ∨ x = 1575) ∧ 75 ≤ y ≤ 825 ∧ y mod 50 = 25).
Proof.
  split; [reflexivity|]. split; [apply starts_NoDup|].
  intros x y. split; [apply starts_on_boundary|].
  assert (Hrows : Forall (λ q, (50 * q + 25, 25) ∈ starts ∧
                               (50 * q + 25, 875) ∈ starts) (seqZ 1 30)).
  { apply (bool_decide_unpack _). by vm_compute. }
  assert (Hcols : Forall (λ q, (25, 50 * q + 25) ∈ starts ∧
                               (1575, 50 * q + 25) ∈ starts) (seqZ 1 16)).
  { apply (bool_decide_unpack _). by vm_compute. }
  rewrite Forall_forall in Hrows, Hcols.
  intros [(Hy & Hx & Hmod)|(Hx & Hy & Hmod)].
  - assert (Hq : x = 50 * (x / 50) + 25).
    { pose proof (Z.div_mod x 50). lia. }
    destruct (Hrows (x / 50)) as [Htop Hbottom].
    { apply elem_of_seqZ. lia. }
    rewrite <- Hq in Htop, Hbottom. by destruct Hy as [-> | ->].
  - assert (Hq : y = 50 * (y / 50) + 25).
    { pose proof (Z.div_mod y 50). lia. }
    destruct (Hcols (y / 50)) as [Hleft Hright].
    { apply elem_of_seqZ. lia. }
    rewrite <- Hq in Hleft, Hright. by destruct Hx as [-> | ->].
Qed.

(** ** The capacity of a game *)

(** X18. [generate_world] raises for one reason only: more players than
    starting positions, which makes [random.sample] raise [ValueError].  With
    at most [length starts] players it returns; [starts.pop()] never runs on
    an empty list. *)
Theorem generate_world_raises_only_when_crowded players e :
  match generate_world players e with
  | Ok _ => (size players ≤ length starts)%nat
  | Raise err => err = ValueError ∧ (length starts < size players)%nat
  end.
Proof.
  destruct (decide (size players ≤ length starts)%nat) as [Hfits|Hbig].
  - by destruct (generate_world_returns players e Hfits) as (w & e' & ->).
  - rewrite generate_world_too_many by lia. split; [done|lia].
Qed.

(** X19. The capacity rule of [_on_hello] keeps the active players of every
    reachable state within the number of starting positions, so a world can
    be generated for them whenever a game begins. *)
Theorem roster_always_fits_the_arena s e :
  reachable s →
  (size (active_players s) ≤ length starts)%nat ∧
  ∃ w e', generate_world (active_players s) e = Ok (w, e').
Proof.
  intros [Hcap _]%reachable_sound.
  split; [done|]. by apply generate_world_returns.
Qed.

Lemma roster_always_fits_the_arena_witness :
  (size (active_players full_house) ≤ length starts)%nat ∧
  ∃ w e', generate_world (active_players full_house) ticking = Ok (w, e').
Proof.
  apply (roster_always_fits_the_arena full_house ticking).
  apply full_house_reachable.
Defined.

(** ** The price of a hit *)

Lemma hits_counts rs victim (l : list (string * Robot)) :
  (∀ item, item ∈ l → rs !! item.1 = Some item.2 ∧ damage item.2 = 10) →
  hits rs l.*1 victim
  = 10 * Z.of_nat (length (filter (λ item, target item.2 = Some victim) l)).
Proof.
  unfold hits. induction l as [|item l IH]; intros Hl; [done|].
  rewrite fmap_cons, fmap_cons. cbn [foldr].
  rewrite IH by (intros i Hi; apply Hl; by right).
  destruct (Hl item) as [Hitem Hten]; [by left|].
  unfold blow. rewrite Hitem, filter_cons.
  destruct (decide (target item.2 = Some victim)); simpl; lia.
Qed.

Lemma incoming_counts rs victim :
  (∀ a r, rs !! a = Some r → damage r = 10) →
  incoming rs victim = 10 * Z.of_nat (attackers rs victim).
Proof.
  intros Hten. unfold incoming, attackers. apply hits_counts.
  intros [a r] Hin%elem_of_map_to_list. split; [done|]. by eapply Hten.
Qed.

(** X20. In a world the server has reached, a turn of [update_world] takes
    ten hit points from a robot for each robot that aims at it, all at once:
    with [k] robots aiming at it, a robot of [hp] hit points stays a robot
    with [hp - 10 * k] if that is positive, and is otherwise a wreck with
    [hp - 10 * k] and no robot any more. *)
Theorem each_attacker_costs_ten s w pending w' n r :
  reachable s → world s = Some w →
  update_world w pending = Ok w' →
  robots w !! n = Some r →
  let left := hp r - 10 * Z.of_nat (attackers (robots w) n) in
  if decide (0 < left)
  then hp <$> robots w' !! n = Some left ∧ wrecks w' !! n = None
  else robots w' !! n = None ∧ hp <$> wrecks w' !! n = Some left.
Proof.
  intros Hreach Hw Hup Hr.
  pose proof (reachable_steady s Hreach) as (_ & _ & _ & Hworld).
  pose proof (reachable_sound s Hreach) as (_ & Hsound & _).
  destruct (Hworld w Hw) as ((_ & Hrobots & _) & _).
  destruct (Hsound w Hw) as [_ Hapart].
  assert (Hin : incoming (robots w) n
                = 10 * Z.of_nat (attackers (robots w) n)).
  { apply incoming_counts. intros a r' Ha.
    by destruct (Hrobots a r' Ha) as ((Hd & _) & _). }
  assert (Hnowreck : wrecks w !! n = None).
  { apply not_elem_of_dom. intros Hn.
    apply (Hapart n); [|done]. by apply elem_of_dom. }
  simpl. rewrite <- Hin.
  rewrite (update_world_robot w pending w' n Hup),
    (update_world_wreck w pending w' n Hup), Hr. simpl.
  destruct (decide (hp r - incoming (robots w) n ≤ 0)) as [Hdead|Halive].
  - rewrite decide_False by lia. by split.
  - rewrite decide_True by lia. by split.
Qed.

Lemma each_attacker_costs_ten_witness :
  let left := 10 - 10 * Z.of_nat (attackers (robots duel) "a") in
  if decide (0 < left)
  then hp <$> robots duel_after !! "a" = Some left ∧
       wrecks duel_after !! "a" = None
  else robots duel_after !! "a" = None ∧
       hp <$> wrecks duel_after !! "a" = Some left.
Proof.
  apply (each_attacker_costs_ten doomed duel ∅ duel_after "a"
           {| move_from := Point.make 75 875; move_to := Point.make 75 875;
              damage := 10; target := None; hp := 10 |}).
  - apply doomed_reachable.
  - reflexivity.
  - vm_compute. reflexivity.
  - vm_compute. reflexivity.
Defined.
